(** * Background job queue and generation client

  A shallow embedding of [services/queue-service.ts] (class [QueueService])
  and of the generation client it drives (class [AIService]), followed by
  the properties of the job lifecycle, the retry path, the in-process
  bookkeeping and the response cache.

  Conventions of the embedding:
  - a Prisma table is a finite map from the primary key to the row;
  - [new Date()] and [Date.now()] are integers (milliseconds), and every
    clock reading a call makes is an argument of the call;
  - the provider behind [client.messages.create] is an oracle: the reply
    a call receives is an argument of the call;
  - a JavaScript exception is the [Throw] case of [result], carrying the
    message of the error. *)

From Stdlib Require Import ZArith String Ascii List Lia.
From stdpp Require Import gmap strings list fin_maps sorting.

Open Scope string_scope.
Open Scope list_scope.
Open Scope Z_scope.

(** ** Exceptions *)

Inductive result (A : Type) : Type :=
| Ok (a : A)
| Throw (msg : string).
Arguments Ok {A} a.
Arguments Throw {A} msg.

(** ** The generation client ([AIService]) *)

Module AIService.

(** [response.content[i]]: a block is a text block or something else. *)
Inductive ContentBlock :=
  | TextBlock (text : string)
  | OtherBlock.

Record Response := {
  content : list ContentBlock;
  input_tokens : Z;
  output_tokens : Z;
}.

(** What [await this.client.messages.create(...)] does on one call. *)
Inductive ProviderReply :=
  | Replies (r : Response)
  | Rejects (msg : string).

(** [Map<string, { result: string; timestamp: number }>] *)
Record CacheEntry := {
  result_text : string;
  timestamp : Z;
}.

Definition TTL : Z := 3600000.

Definition failed_to_generate : string := "Failed to generate component".
Definition unexpected_response_type : string := "Unexpected response type".
Definition type_error_undefined : string :=
  "Cannot read properties of undefined (reading 'type')".

(** The sweep after an insert: entries with [Date.now() - timestamp >
    3600000] are deleted, the others stay. *)
Definition sweep (now : Z) (cache : gmap string CacheEntry)
  : gmap string CacheEntry :=
  filter (λ kv, ¬ (now - timestamp kv.2 > TTL)) cache.

(** The part of [generateComponent] after a cache miss.  Everything sits
    inside the [try]: a rejected request, an empty [content] and a
    non-text first block all end in the one error of the [catch]. *)
Definition generateFresh (p : string) (t1 : Z) (reply : ProviderReply)
    (cache : gmap string CacheEntry)
  : gmap string CacheEntry * result (string * Z) :=
  match reply with
  | Rejects _ => (cache, Throw failed_to_generate)
  | Replies r =>
      match content r with
      | TextBlock text :: _ =>
          (sweep t1 (<[p := {| result_text := text; timestamp := t1 |}]> cache),
           Ok (text, input_tokens r + output_tokens r))
      | _ => (cache, Throw failed_to_generate)
      end
  end.

(** [generateComponent(prompt)].  [prompt] is [None] when the caller
    passes [undefined] (then [prompt.length] throws inside the [try]).
    [t0] is the clock at the cache check, [t1] the clock once the provider
    has answered.  The result is [(code, tokensUsed)]. *)
Definition generateComponent (prompt : option string) (t0 t1 : Z)
    (reply : ProviderReply) (cache : gmap string CacheEntry)
  : gmap string CacheEntry * result (string * Z) :=
  match prompt with
  | None => (cache, Throw failed_to_generate)
  | Some p =>
      match cache !! p with
      | Some cached =>
          if bool_decide (t0 - timestamp cached < TTL)
          then (cache, Ok (result_text cached, 0))
          else generateFresh p t1 reply cache
      | None => generateFresh p t1 reply cache
      end
  end.

(** [improveCode(code, feedback)]: nothing is caught here.  The arguments
    only shape the request, whose answer is [reply]. *)
Definition improveCode (reply : ProviderReply) : result string :=
  match reply with
  | Rejects msg => Throw msg
  | Replies r =>
      match content r with
      | [] => Throw type_error_undefined
      | TextBlock text :: _ => Ok text
      | OtherBlock :: _ => Throw unexpected_response_type
      end
  end.

(** [String.prototype.toLowerCase] on the ASCII letters; other code units
    are kept. *)
Definition lower_ascii (c : ascii) : ascii :=
  let n := N_of_ascii c in
  if ((65 <=? n) && (n <=? 90))%N then ascii_of_N (n + 32) else c.

Fixpoint toLowerCase (s : string) : string :=
  match s with
  | EmptyString => EmptyString
  | String c s' => String (lower_ascii c) (toLowerCase s')
  end.

(** [String.prototype.includes] *)
Fixpoint includes (needle s : string) : bool :=
  String.prefix needle s ||
  match s with
  | EmptyString => false
  | String _ s' => includes needle s'
  end.

Definition hasIssues (text : string) : bool :=
  includes "issue" (toLowerCase text) || includes "error" (toLowerCase text).

(** [validateComponent(code)]: the result is [(valid, issues)].  [code] only
    shapes the request, whose answer is [reply]. *)
Definition validateComponent (reply : ProviderReply)
  : result (bool * list string) :=
  match reply with
  | Rejects msg => Throw msg
  | Replies r =>
      match content r with
      | [] => Throw type_error_undefined
      | TextBlock text :: _ =>
          Ok (negb (hasIssues text), if hasIssues text then [text] else [])
      | OtherBlock :: _ => Ok (true, [])
      end
  end.

(** [c] is the character [w], or [w] is one of the letters a to z and [c] is
    its capital (the code of a capital is 32 below).  [w] stands for a
    character of a word written in lower case. *)
Definition sameLetter (c w : ascii) : Prop :=
  c = w ∨
  ((97 ≤ N_of_ascii w ≤ 122)%N ∧ (N_of_ascii c + 32 = N_of_ascii w)%N).

(** [mid] spells [word], letter case aside: same length, and character by
    character the same letter. *)
Fixpoint spells (mid word : string) : Prop :=
  match mid, word with
  | EmptyString, EmptyString => True
  | String c mid', String w word' => sameLetter c w ∧ spells mid' word'
  | _, _ => False
  end.

(** [text] contains [word] as a substring, letter case aside.  This is the
    specification the verdict of [validateComponent] is compared with; it
    does not go through [toLowerCase]. *)
Definition mentions (word text : string) : Prop :=
  ∃ pre mid post : string,
    text = (pre ++ mid ++ post)%string ∧ spells mid word.

(** [getCacheSize()] *)
Definition getCacheSize (cache : gmap string CacheEntry) : nat := size cache.

(** [clearCache()] *)
Definition clearCache (cache : gmap string CacheEntry)
  : gmap string CacheEntry := ∅.

End AIService.

(** ** Prisma tables *)

Module Prisma.

Definition record_not_found : string := "Record to update not found.".
Definition missing_where_id : string := "Argument `where` needs an id.".
Definition unique_constraint : string :=
  "Unique constraint failed on the fields: (`id`)".

(** [prisma.<table>.update({ where: { id }, data })]: rejects when [id] is
    [undefined] or names no row, otherwise rewrites that one row. *)
Definition update {A : Type} (id : option string) (data : A → A)
    (tbl : gmap string A) : result (gmap string A) :=
  match id with
  | None => Throw missing_where_id
  | Some k =>
      match tbl !! k with
      | None => Throw record_not_found
      | Some row => Ok (<[k := data row]> tbl)
      end
  end.

(** [prisma.<table>.create({ data })] with the key the store assigns. *)
Definition create {A : Type} (id : string) (row : A) (tbl : gmap string A)
  : result (gmap string A) :=
  match tbl !! id with
  | Some _ => Throw unique_constraint
  | None => Ok (<[id := row]> tbl)
  end.

End Prisma.

(** The four values the code writes into a [status] column. *)
Inductive Status := Pending | Processing | Completed | Failed.

#[global] Instance Status_eq_dec : EqDecision Status.
Proof. solve_decision. Defined.

(** Rows of [prisma.generation] (the Result Record of a generation job). *)
Module Generation.

Record row := {
  status : Status;
  result : option string;
  tokensUsed : option Z;
  completedAt : option Z;
}.

(** [data: { status: "completed", result, tokensUsed, completedAt }] *)
Definition completed (code : string) (tokens now : Z) (_ : row) : row :=
  {| status := Completed; result := Some code; tokensUsed := Some tokens;
     completedAt := Some now |}.

(** [data: { status: "failed", completedAt }] *)
Definition failed (now : Z) (g : row) : row :=
  {| status := Failed; result := result g; tokensUsed := tokensUsed g;
     completedAt := Some now |}.

End Generation.

(** Rows of [prisma.component]: [componentData] is the object handed to
    [JSON.stringify]. *)
Module Component.

Inductive data :=
  | Initial (json : string)
  | Improved (code : string)
  | Validated (code : option string) (valid : bool) (issues : list string)
      (validatedAt : Z).

Record row := {
  componentData : data;
  updatedAt : Z;
}.

End Component.

(** ** The queue service ([QueueService]) *)

Module QueueService.
Import AIService.

(** [job.payload], read by destructuring: an absent field is [undefined]. *)
Record Payload := {
  generationId : option string;
  prompt : option string;
  code : option string;
  feedback : option string;
  componentId : option string;
}.

(** A row of [prisma.queueJob]; the [id] is the key of the table. *)
Record QueueJob := {
  type : string;
  payload : Payload;
  status : Status;
  priority : Z;
  attempts : Z;
  maxAttempts : Z;
  scheduledFor : Z;
  createdAt : Z;
  startedAt : option Z;
  completedAt : option Z;
  error : option string;
}.

Record DB := {
  queueJob : gmap string QueueJob;
  generation : gmap string Generation.row;
  component : gmap string Component.row;
}.

Definition with_queueJob (q : gmap string QueueJob) (d : DB) : DB :=
  {| queueJob := q; generation := generation d; component := component d |}.
Definition with_generation (g : gmap string Generation.row) (d : DB) : DB :=
  {| queueJob := queueJob d; generation := g; component := component d |}.
Definition with_component (c : gmap string Component.row) (d : DB) : DB :=
  {| queueJob := queueJob d; generation := generation d; component := c |}.

Record FailedJob := {
  failed_id : string;
  failed_error : string;
  failed_timestamp : Z;
}.

(** The fields of one [QueueService] instance, with the cache of the
    [AIService] it owns. *)
Record Service := {
  processing : bool;
  processedJobs : gset string;
  failedJobsCache : list FailedJob;
  requestCache : gmap string CacheEntry;
}.

Definition with_processing (b : bool) (s : Service) : Service :=
  {| processing := b; processedJobs := processedJobs s;
     failedJobsCache := failedJobsCache s; requestCache := requestCache s |}.
Definition with_processedJobs (p : gset string) (s : Service) : Service :=
  {| processing := processing s; processedJobs := p;
     failedJobsCache := failedJobsCache s; requestCache := requestCache s |}.
Definition with_failedJobsCache (l : list FailedJob) (s : Service) : Service :=
  {| processing := processing s; processedJobs := processedJobs s;
     failedJobsCache := l; requestCache := requestCache s |}.
Definition with_requestCache (c : gmap string CacheEntry) (s : Service)
  : Service :=
  {| processing := processing s; processedJobs := processedJobs s;
     failedJobsCache := failedJobsCache s; requestCache := c |}.

Definition newService : Service :=
  {| processing := false; processedJobs := ∅; failedJobsCache := [];
     requestCache := ∅ |}.

(** *** The writes to a job row *)

(** [data: { status: "processing", startedAt }] *)
Definition toProcessing (now : Z) (j : QueueJob) : QueueJob :=
  {| type := type j; payload := payload j; status := Processing;
     priority := priority j; attempts := attempts j;
     maxAttempts := maxAttempts j; scheduledFor := scheduledFor j;
     createdAt := createdAt j; startedAt := Some now;
     completedAt := completedAt j; error := error j |}.

(** [data: { status: "completed", completedAt }] *)
Definition toCompleted (now : Z) (j : QueueJob) : QueueJob :=
  {| type := type j; payload := payload j; status := Completed;
     priority := priority j; attempts := attempts j;
     maxAttempts := maxAttempts j; scheduledFor := scheduledFor j;
     createdAt := createdAt j; startedAt := startedAt j;
     completedAt := Some now; error := error j |}.

(** The delay of a retry: the literal [5000] of the source. *)
Definition retryDelay : Z := 5000.

(** [data: { status: "pending", attempts, error, scheduledFor }] *)
Definition toRetry (newAttempts : Z) (msg : string) (now : Z) (j : QueueJob)
  : QueueJob :=
  {| type := type j; payload := payload j; status := Pending;
     priority := priority j; attempts := newAttempts;
     maxAttempts := maxAttempts j; scheduledFor := now + retryDelay;
     createdAt := createdAt j; startedAt := startedAt j;
     completedAt := completedAt j; error := Some msg |}.

(** [data: { status: "failed", attempts, error, completedAt }] *)
Definition toFailed (newAttempts : Z) (msg : string) (now : Z) (j : QueueJob)
  : QueueJob :=
  {| type := type j; payload := payload j; status := Failed;
     priority := priority j; attempts := newAttempts;
     maxAttempts := maxAttempts j; scheduledFor := scheduledFor j;
     createdAt := createdAt j; startedAt := startedAt j;
     completedAt := Some now; error := Some msg |}.

(** [data: { status: "pending", attempts: 0, error: null, scheduledFor,
    startedAt: null, completedAt: null }] *)
Definition toReset (now : Z) (j : QueueJob) : QueueJob :=
  {| type := type j; payload := payload j; status := Pending;
     priority := priority j; attempts := 0;
     maxAttempts := maxAttempts j; scheduledFor := now;
     createdAt := createdAt j; startedAt := None;
     completedAt := None; error := None |}.

(** *** [addJob] *)

(** [addJob(job)].  The key [id], [createdAt] and [maxAttempts] are not set
    by the call: the store fills them in ([defaultMaxAttempts] is the default
    of the column).  [priority] is [job.priority || 0]. *)
Definition addJob (defaultMaxAttempts : Z) (id : string) (t_created now : Z)
    (ty : string) (pl : Payload) (prio : option Z) (d : DB)
  : DB * result QueueJob :=
  let newJob :=
    {| type := ty; payload := pl; status := Pending;
       priority := default 0 prio; attempts := 0;
       maxAttempts := defaultMaxAttempts; scheduledFor := now;
       createdAt := t_created; startedAt := None; completedAt := None;
       error := None |} in
  match Prisma.create id newJob (queueJob d) with
  | Ok q => (with_queueJob q d, Ok newJob)
  | Throw msg => (d, Throw msg)
  end.

(** *** [findFirst] *)

(** [where: { status: "pending", scheduledFor: { lte: now } }] *)
Definition eligible (now : Z) (j : QueueJob) : bool :=
  bool_decide (status j = Pending) && (scheduledFor j <=? now).

(** [orderBy: [{ priority: "desc" }, { createdAt: "asc" }]]: [a] comes
    strictly before [b]. *)
Definition before (a b : QueueJob) : bool :=
  (priority b <? priority a) ||
  ((priority a =? priority b) && (createdAt a <? createdAt b)).

Definition pick (best : option (string * QueueJob)) (kv : string * QueueJob)
  : option (string * QueueJob) :=
  match best with
  | None => Some kv
  | Some b => if before kv.2 b.2 then Some kv else Some b
  end.

(** [prisma.queueJob.findFirst({ where, orderBy })]: the first row of the
    ordering among the eligible ones (rows that tie are taken in the order
    the table enumerates them). *)
Definition findFirst (now : Z) (tbl : gmap string QueueJob)
  : option (string * QueueJob) :=
  foldl pick None (filter (λ kv, eligible now kv.2 = true) (map_to_list tbl)).

(** *** The handlers *)

(** The clock readings and the provider reply of one poll tick. *)
Record Env := {
  t_find : Z;     (* [new Date()] in the [where] of [findFirst] *)
  t_start : Z;    (* [startedAt] *)
  t_check : Z;    (* [Date.now()] at the cache check *)
  t_reply : Z;    (* [Date.now()] once the provider has answered *)
  t_record : Z;   (* the [new Date()] a handler writes *)
  t_done : Z;     (* the clock at the outcome write *)
  reply : ProviderReply;
}.

(** [handleAIGeneration(job)]: the [try] is the call and the write of the
    result; the [catch] writes the failure and throws the error again.  A
    rejected write inside the [catch] replaces the error. *)
Definition handleAIGeneration (env : Env) (job : QueueJob)
    (cache : gmap string CacheEntry) (d : DB)
  : gmap string CacheEntry * DB * result unit :=
  let gid := generationId (payload job) in
  let '(cache', r) :=
    generateComponent (prompt (payload job)) (t_check env) (t_reply env)
      (reply env) cache in
  let tried :=
    match r with
    | Throw msg => Throw msg
    | Ok (text, tokens) =>
        Prisma.update gid (Generation.completed text tokens (t_record env))
          (generation d)
    end in
  match tried with
  | Ok g => (cache', with_generation g d, Ok tt)
  | Throw msg =>
      match Prisma.update gid (Generation.failed (t_record env))
              (generation d) with
      | Ok g => (cache', with_generation g d, Throw msg)
      | Throw msg' => (cache', d, Throw msg')
      end
  end.

(** [handleAIImprovement(job)] *)
Definition handleAIImprovement (env : Env) (job : QueueJob) (d : DB)
  : DB * result unit :=
  match improveCode (reply env) with
  | Throw msg => (d, Throw msg)
  | Ok improvedCode =>
      match Prisma.update (componentId (payload job))
              (λ _, {| Component.componentData := Component.Improved improvedCode;
                       Component.updatedAt := t_record env |})
              (component d) with
      | Ok c => (with_component c d, Ok tt)
      | Throw msg => (d, Throw msg)
      end
  end.

(** [handleAIValidation(job)] *)
Definition handleAIValidation (env : Env) (job : QueueJob) (d : DB)
  : DB * result unit :=
  match validateComponent (reply env) with
  | Throw msg => (d, Throw msg)
  | Ok (valid, issues) =>
      match Prisma.update (componentId (payload job))
              (λ c, {| Component.componentData :=
                         Component.Validated (code (payload job)) valid issues
                           (t_record env);
                       Component.updatedAt := Component.updatedAt c |})
              (component d) with
      | Ok c => (with_component c d, Ok tt)
      | Throw msg => (d, Throw msg)
      end
  end.

(** The types [executeJob] has a [case] for. *)
Definition recognized (ty : string) : bool :=
  String.eqb ty "ai_generation" || String.eqb ty "ai_improvement" ||
  String.eqb ty "ai_validation".

(** [executeJob(job)]: the [default] case logs the type and returns. *)
Definition executeJob (env : Env) (job : QueueJob)
    (cache : gmap string CacheEntry) (d : DB)
  : gmap string CacheEntry * DB * result unit :=
  if String.eqb (type job) "ai_generation" then
    handleAIGeneration env job cache d
  else if String.eqb (type job) "ai_improvement" then
    let '(d', r) := handleAIImprovement env job d in (cache, d', r)
  else if String.eqb (type job) "ai_validation" then
    let '(d', r) := handleAIValidation env job d in (cache, d', r)
  else (cache, d, Ok tt).

(** *** [processNextJob] *)

(** The way one call of [processNextJob] went. *)
Inductive Outcome :=
  | Skipped
  | NoJob
  | AlreadyProcessed (id : string)
  | StoreError (msg : string)
  | Executed (id : string) (r : result unit).

Inductive Selection :=
  | NoneFound
  | Seen (id : string)
  | Selected (id : string) (job : QueueJob).

(** Lines 61-79: [findFirst], then the look-up in [processedJobs]. *)
Definition selectJob (now : Z) (s : Service) (d : DB) : Selection :=
  match findFirst now (queueJob d) with
  | None => NoneFound
  | Some (id, job) =>
      if bool_decide (id ∈ processedJobs s) then Seen id else Selected id job
  end.

(** Lines 81-91: the separate [update] to [processing], then
    [processedJobs.add]. *)
Definition claimJob (now : Z) (id : string) (s : Service) (d : DB)
  : result (Service * DB) :=
  match Prisma.update (Some id) (toProcessing now) (queueJob d) with
  | Throw msg => Throw msg
  | Ok q =>
      Ok (with_processedJobs ({[id]} ∪ processedJobs s) s, with_queueJob q d)
  end.

(** Lines 105-140, the inner [catch]: the [data] of its write.  [job] is the
    row as [findFirst] returned it; every error the model throws is an
    [Error], so [errorMessage] is its message. *)
Definition failureWrite (env : Env) (job : QueueJob) (errorMessage : string)
  : QueueJob → QueueJob :=
  let newAttempts := attempts job + 1 in
  if newAttempts <? maxAttempts job
  then toRetry newAttempts errorMessage (t_done env)
  else toFailed newAttempts errorMessage (t_done env).

(** [failedJobsCache.push(...)] *)
Definition recordFailure (env : Env) (id : string) (errorMessage : string)
    (s : Service) : Service :=
  with_failedJobsCache
    (failedJobsCache s ++
     [{| failed_id := id; failed_error := errorMessage;
         failed_timestamp := t_done env |}]) s.

(** The inner [catch]; a rejected write lands in the outer [catch], which
    only logs. *)
Definition failJob (env : Env) (id : string) (job : QueueJob)
    (errorMessage : string) (s : Service) (d : DB) : Service * DB :=
  let s' := recordFailure env id errorMessage s in
  match Prisma.update (Some id) (failureWrite env job errorMessage)
          (queueJob d) with
  | Ok q => (s', with_queueJob q d)
  | Throw _ => (s', d)
  end.

(** Lines 97-141: what follows [executeJob].  The write of [completed] sits
    inside the inner [try], so its rejection is caught like a failure of the
    job. *)
Definition settle (env : Env) (id : string) (job : QueueJob)
    (r : result unit) (s : Service) (d : DB) : Service * DB :=
  match r with
  | Ok _ =>
      match Prisma.update (Some id) (toCompleted (t_done env)) (queueJob d) with
      | Ok q => (s, with_queueJob q d)
      | Throw errorMessage => failJob env id job errorMessage s d
      end
  | Throw errorMessage => failJob env id job errorMessage s d
  end.

(** The write a job row receives, by the way [executeJob] ended. *)
Definition outcomeWrite (env : Env) (job : QueueJob) (r : result unit)
  : QueueJob → QueueJob :=
  match r with
  | Ok _ => toCompleted (t_done env)
  | Throw errorMessage => failureWrite env job errorMessage
  end.

(** The entry [failedJobsCache] receives, by the way [executeJob] ended. *)
Definition noteFailure (env : Env) (id : string) (r : result unit)
    (s : Service) : Service :=
  match r with
  | Ok _ => s
  | Throw errorMessage => recordFailure env id errorMessage s
  end.

(** Lines 93-146 for a claimed job. *)
Definition runJob (env : Env) (id : string) (job : QueueJob) (s : Service)
    (d : DB) : Service * DB * Outcome :=
  let '(cache, d1, r) := executeJob env job (requestCache s) d in
  let '(s2, d2) := settle env id job r (with_requestCache cache s) d1 in
  (with_processing false s2, d2, Executed id r).

Definition processNextJob (env : Env) (s : Service) (d : DB)
  : Service * DB * Outcome :=
  if processing s then (s, d, Skipped)
  else
    match selectJob (t_find env) s d with
    | NoneFound => (with_processing false s, d, NoJob)
    | Seen id => (with_processing false s, d, AlreadyProcessed id)
    | Selected id job =>
        match claimJob (t_start env) id s d with
        | Throw msg => (with_processing false s, d, StoreError msg)
        | Ok (s1, d1) => runJob env id job s1 d1
        end
    end.

(** The service a tick leaves behind once it has executed [id]. *)
Definition afterRun (env : Env) (id : string) (r : result unit)
    (cache : gmap string CacheEntry) (s : Service) : Service :=
  with_processing false
    (noteFailure env id r
       (with_requestCache cache
          (with_processedJobs ({[id]} ∪ processedJobs s) s))).

(** The three ways a tick of an idle service goes. *)
Inductive TickCase (env : Env) (s : Service) (d : DB)
  : Service * DB * Outcome → Prop :=
  | tick_none :
      findFirst (t_find env) (queueJob d) = None →
      TickCase env s d (s, d, NoJob)
  | tick_seen id job :
      findFirst (t_find env) (queueJob d) = Some (id, job) →
      id ∈ processedJobs s →
      TickCase env s d (s, d, AlreadyProcessed id)
  | tick_run id job cache d1 r :
      findFirst (t_find env) (queueJob d) = Some (id, job) →
      id ∉ processedJobs s →
      executeJob env job (requestCache s)
        (with_queueJob (<[id := toProcessing (t_start env) job]> (queueJob d)) d)
      = (cache, d1, r) →
      TickCase env s d
        (afterRun env id r cache s,
         with_queueJob
           (<[id := outcomeWrite env job r (toProcessing (t_start env) job)]>
              (queueJob d)) d1,
         Executed id r).

(** *** [retryJob] *)

Definition not_found_or_not_failed : string :=
  "Job not found or not in failed state".

Definition retryJob (jobId : string) (now : Z) (s : Service) (d : DB)
  : Service * DB * result unit :=
  match queueJob d !! jobId with
  | None => (s, d, Throw not_found_or_not_failed)
  | Some job =>
      if bool_decide (status job = Failed) then
        match Prisma.update (Some jobId) (toReset now) (queueJob d) with
        | Ok q =>
            (with_processedJobs (processedJobs s ∖ {[jobId]}) s,
             with_queueJob q d, Ok tt)
        | Throw msg => (s, d, Throw msg)
        end
      else (s, d, Throw not_found_or_not_failed)
  end.

(** *** One worker process over time *)

(** What reaches one [QueueService] instance and its store: a call of
    [addJob], a poll tick, a call of [retryJob]. *)
Inductive Op :=
  | Enqueue (id : string) (t_created now : Z) (ty : string) (pl : Payload)
      (prio : option Z)
  | Tick (env : Env)
  | Retry (jobId : string) (now : Z).

(** One operation; the outcome is reported for a tick. *)
Definition step (defaultMaxAttempts : Z) (op : Op) (s : Service) (d : DB)
  : Service * DB * option Outcome :=
  match op with
  | Enqueue id t_created now ty pl prio =>
      (s, (addJob defaultMaxAttempts id t_created now ty pl prio d).1, None)
  | Tick env =>
      let '(s', d', o) := processNextJob env s d in (s', d', Some o)
  | Retry jobId now =>
      let '(s', d', _) := retryJob jobId now s d in (s', d', None)
  end.

(** A sequence of operations, with the outcomes of its ticks in order. *)
Fixpoint run (defaultMaxAttempts : Z) (ops : list Op) (s : Service) (d : DB)
  : Service * DB * list Outcome :=
  match ops with
  | [] => (s, d, [])
  | op :: ops' =>
      let '(s1, d1, o) := step defaultMaxAttempts op s d in
      let '(s2, d2, os) := run defaultMaxAttempts ops' s1 d1 in
      (s2, d2, option_list o ++ os)
  end.

(** *** Two worker processes over one store *)

(** Where a worker stands between two of its [await]s. *)
Inductive Phase :=
  | Idle
  | Holding (id : string) (job : QueueJob)
  | Claimed (id : string) (job : QueueJob).

Record Proc := {
  service : Service;
  phase : Phase;
}.

(** The three stretches of [processNextJob] that the store sees as
    separate requests. *)
Inductive Event :=
  | Find (now : Z)
  | Mark (now : Z)
  | Run (env : Env).

Definition procStep (e : Event) (p : Proc) (d : DB) : Proc * DB :=
  match e, phase p with
  | Find now, Idle =>
      if processing (service p) then (p, d)
      else
        match selectJob now (service p) d with
        | Selected id job =>
            ({| service := with_processing true (service p);
                phase := Holding id job |}, d)
        | _ => ({| service := with_processing false (service p);
                   phase := Idle |}, d)
        end
  | Mark now, Holding id job =>
      match claimJob now id (service p) d with
      | Ok (s1, d1) => ({| service := s1; phase := Claimed id job |}, d1)
      | Throw _ =>
          ({| service := with_processing false (service p); phase := Idle |},
           d)
      end
  | Run env, Claimed id job =>
      let '(s2, d2, _) := runJob env id job (service p) d in
      ({| service := s2; phase := Idle |}, d2)
  | _, _ => (p, d)
  end.

Inductive Who := WorkerA | WorkerB.

Record System := {
  procA : Proc;
  procB : Proc;
  store : DB;
}.

Definition sysStep (sys : System) (we : Who * Event) : System :=
  match we.1 with
  | WorkerA =>
      let '(p, d) := procStep we.2 (procA sys) (store sys) in
      {| procA := p; procB := procB sys; store := d |}
  | WorkerB =>
      let '(p, d) := procStep we.2 (procB sys) (store sys) in
      {| procA := procA sys; procB := p; store := d |}
  end.

Definition schedule (evs : list (Who * Event)) (sys : System) : System :=
  foldl sysStep sys evs.

Definition idleProc : Proc := {| service := newService; phase := Idle |}.

End QueueService.

(** ** Invariant of the job table *)

Module Invariant.
Import QueueService.



End Invariant.

(** ** Concrete stores and ticks *)

Module Scenario.
Import AIService QueueService.

Definition buttonPayload : Payload :=
  {| generationId := Some "g1"; prompt := Some "button"; code := None;
     feedback := None; componentId := None |}.

(** A pending job of type [ty], due at time 0, with [a] attempts made out
    of [m]. *)
Definition pendingJob (ty : string) (a m : Z) : QueueJob :=
  {| type := ty; payload := buttonPayload; status := Pending; priority := 0;
     attempts := a; maxAttempts := m; scheduledFor := 0; createdAt := 0;
     startedAt := None; completedAt := None; error := None |}.

Definition failedJob (a m : Z) : QueueJob :=
  {| type := "ai_generation"; payload := buttonPayload; status := Failed;
     priority := 0; attempts := a; maxAttempts := m; scheduledFor := 0;
     createdAt := 0; startedAt := Some 11; completedAt := Some 15;
     error := Some "Failed to generate component" |}.

Definition pendingGeneration : Generation.row :=
  {| Generation.status := Pending; Generation.result := None;
     Generation.tokensUsed := None; Generation.completedAt := None |}.

(** One job ["j1"] and the generation ["g1"] it is for. *)
Definition storeWith (j : QueueJob) : DB :=
  {| queueJob := {[ "j1" := j ]};
     generation := {[ "g1" := pendingGeneration ]};
     component := ∅ |}.

Definition tickWith (r : ProviderReply) : Env :=
  {| t_find := 10; t_start := 11; t_check := 12; t_reply := 13;
     t_record := 14; t_done := 15; reply := r |}.

Definition rateLimited : ProviderReply := Rejects "rate_limit_error".

Definition answered : ProviderReply :=
  Replies {| content := [TextBlock "<button/>"];
             input_tokens := 120; output_tokens := 30 |}.

(** Two fresh worker processes over a store with the one pending job. *)
Definition twoWorkers : System :=
  {| procA := idleProc; procB := idleProc;
     store := storeWith (pendingJob "ai_generation" 0 3) |}.

(** Both workers read before either writes. *)
Definition racingClaims : list (Who * Event) :=
  [(WorkerA, Find 10); (WorkerB, Find 10);
   (WorkerA, Mark 11); (WorkerB, Mark 12)].

End Scenario.

(** ** Vocabulary for the histories of a service *)

Module History.
Import QueueService.

(** What identifies a job beyond its key: the columns no write of the service
    names. *)
Definition sameJob (a b : QueueJob) : Prop :=
  type a = type b ∧ payload a = payload b ∧ priority a = priority b ∧
  createdAt a = createdAt b ∧ maxAttempts a = maxAttempts b.

(** [a] comes strictly before [b] in the ordering of [findFirst]. *)
Definition outranks (a b : QueueJob) : Prop :=
  priority b < priority a ∨
  (priority a = priority b ∧ createdAt a < createdAt b).

(** The row is [Pending] and due at [now]. *)
Definition due (now : Z) (j : QueueJob) : Prop :=
  status j = Pending ∧ scheduledFor j ≤ now.

(** The ids a sequence of tick outcomes executed, in order. *)
Definition executedIds (outs : list Outcome) : list string :=
  omap (λ o, match o with Executed id _ => Some id | _ => None end) outs.

(** How often a sequence of tick outcomes executed [id]. *)
Definition executions (id : string) (outs : list Outcome) : nat :=
  length (filter (λ x, x = id) (executedIds outs)).

(** The outcome is an execution that threw. *)
Definition threw (o : Outcome) : bool :=
  match o with
  | Executed _ (Throw _) => true
  | _ => false
  end.

(** The executions in a sequence of tick outcomes that threw. *)
Definition failures (outs : list Outcome) : nat :=
  length (filter (λ o, threw o = true) outs).

End History.

(** ** Inspection of the queue *)

Module Inspection.
Import QueueService.

(** [prisma.queueJob.count({ where: { status } })] *)
Definition count (st : Status) (tbl : gmap string QueueJob) : nat :=
  size (filter (λ kv, status kv.2 = st) tbl).

(** The object [getQueueStats] returns. *)
Record Stats := {
  pending : nat;
  processing : nat;
  completed : nat;
  failed : nat;
  processedCount : nat;
  failedCacheSize : nat;
}.

Definition getQueueStats (s : Service) (d : DB) : Stats :=
  {| pending := count Pending (queueJob d);
     processing := count Processing (queueJob d);
     completed := count Completed (queueJob d);
     failed := count Failed (queueJob d);
     processedCount := size (processedJobs s);
     failedCacheSize := length (failedJobsCache s) |}.

(** [orderBy: { completedAt: "desc" }] as PostgreSQL orders it: [a] may stand
    before [b]; a row without [completedAt] comes before the others. *)
Definition recentFirst (a b : string * QueueJob) : Prop :=
  match completedAt a.2, completedAt b.2 with
  | None, _ => True
  | Some _, None => False
  | Some x, Some y => y ≤ x
  end.

#[global] Instance recentFirst_dec a b : Decision (recentFirst a b).
Proof.
  unfold recentFirst.
  destruct (completedAt a.2), (completedAt b.2); apply _.
Defined.

(** [getFailedJobs()]: the rows, each with its [id]. *)
Definition getFailedJobs (d : DB) : list (string * QueueJob) :=
  merge_sort recentFirst
    (filter (λ kv, status kv.2 = Failed) (map_to_list (queueJob d))).

End Inspection.

(** ** The request context ([server/context.ts]) *)

Module Context.
Import AIService QueueService.

(** The white space and line terminators [String.prototype.trim] strips,
    among the code units a header value can hold (0 to 255). *)
Definition isWhiteSpace (c : ascii) : bool :=
  let n := N_of_ascii c in
  ((9 <=? n) && (n <=? 13) || (n =? 32) || (n =? 160))%N.

Fixpoint trimStart (s : string) : string :=
  match s with
  | EmptyString => EmptyString
  | String c s' => if isWhiteSpace c then trimStart s' else s
  end.

Fixpoint trimEnd (s : string) : string :=
  match s with
  | EmptyString => EmptyString
  | String c s' =>
      match trimEnd s' with
      | EmptyString => if isWhiteSpace c then EmptyString else String c EmptyString
      | t => String c t
      end
  end.

(** [String.prototype.trim] *)
Definition trim (s : string) : string := trimEnd (trimStart s).

(** [String.prototype.split(sep)] for a separator of one character. *)
Fixpoint split (sep : ascii) (s : string) : list string :=
  match s with
  | EmptyString => [EmptyString]
  | String c s' =>
      if Ascii.eqb c sep then EmptyString :: split sep s'
      else
        match split sep s' with
        | piece :: pieces => String c piece :: pieces
        | [] => [String c EmptyString]
        end
  end.

(** [(c) => c.trim().split("=")] *)
Definition entry (c : string) : list string := split "=" (trim c).

(** [([k]) => k && k.length > 0] *)
Definition keep (e : list string) : bool :=
  match e with
  | k :: _ => negb (String.eqb k "")
  | [] => false
  end.

(** [Object.fromEntries]: the first two elements of each entry are key and
    value (the value is [undefined] when there is no second element); a
    later entry overwrites an earlier one with the same key. *)
Definition fromEntries (es : list (list string))
  : gmap string (option string) :=
  foldl (λ m e, match e with
                | k :: rest => <[k := head rest]> m
                | [] => m
                end) ∅ es.

(** The [cookies] object of [createContext]; [None] is a request without a
    [cookie] header. *)
Definition parseCookies (cookieHeader : option string)
  : gmap string (option string) :=
  fromEntries (filter (λ e, keep e = true)
                 (entry <$> split ";" (default "" cookieHeader))).

(** [cookies["auth_token"]] when it passes [if (token)]. *)
Definition authToken (cookieHeader : option string) : option string :=
  match parseCookies cookieHeader !! "auth_token" with
  | Some (Some token) => if String.eqb token "" then None else Some token
  | _ => None
  end.

(** A row of [prisma.session] with its user included; the table is keyed by
    the unique [token]. *)
Record Session (User : Type) := {
  expiresAt : Z;
  sessionUser : User;
}.
Arguments expiresAt {User} _.
Arguments sessionUser {User} _.

(** The object [createContext] returns, without [req] and [prisma]. *)
Record Ctx (User : Type) := {
  user : option User;
  aiService : gmap string CacheEntry;
  queueService : Service;
}.
Arguments user {User} _.
Arguments aiService {User} _.
Arguments queueService {User} _.

Definition createContext {User : Type} (cookieHeader : option string)
    (now : Z) (sessions : gmap string (Session User)) : Ctx User :=
  {| user :=
       match authToken cookieHeader with
       | Some token =>
           match sessions !! token with
           | Some session =>
               if now <? expiresAt session then Some (sessionUser session)
               else None
           | None => None
           end
       | None => None
       end;
     aiService := ∅;
     queueService := newService |}.

(** [c] occurs in [s]. *)
Fixpoint occurs (c : ascii) (s : string) : bool :=
  match s with
  | EmptyString => false
  | String c' s' => Ascii.eqb c' c || occurs c s'
  end.

(** A cookie name or value as a browser sends it: no [;], no [=], no white
    space at either end. *)
Definition plain (s : string) : Prop :=
  occurs ";" s = false ∧ occurs "=" s = false ∧
  trimStart s = s ∧ trimEnd s = s.

(** The [cookie] header a browser sends for a list of cookies:
    [k1=v1; k2=v2; ...]. *)
Fixpoint cookieHeaderOf (pairs : list (string * string)) : string :=
  match pairs with
  | [] => EmptyString
  | [(k, v)] => (k ++ "=" ++ v)%string
  | (k, v) :: rest => (k ++ "=" ++ v ++ "; " ++ cookieHeaderOf rest)%string
  end.

End Context.

(** ** More concrete stores, services and histories *)

Module Cases.
Import AIService QueueService Scenario.

Definition genJob : QueueJob := pendingJob "ai_generation" 0 3.

(** A tick whose provider call succeeds, and one whose call is rejected. *)
Definition doneTick : Service * DB * Outcome :=
  processNextJob (tickWith answered) newService (storeWith genJob).
Definition failTick : Service * DB * Outcome :=
  processNextJob (tickWith rateLimited) newService (storeWith genJob).

Definition completedJob : QueueJob :=
  {| type := "ai_generation"; payload := buttonPayload; status := Completed;
     priority := 0; attempts := 0; maxAttempts := 3; scheduledFor := 0;
     createdAt := 0; startedAt := Some 11; completedAt := Some 15;
     error := None |}.

Definition componentPayload : Payload :=
  {| generationId := None; prompt := None; code := Some "<b/>";
     feedback := Some "make it bold"; componentId := Some "c1" |}.

Definition componentJob (ty : string) : QueueJob :=
  {| type := ty; payload := componentPayload; status := Pending;
     priority := 0; attempts := 0; maxAttempts := 3; scheduledFor := 0;
     createdAt := 0; startedAt := None; completedAt := None;
     error := None |}.

(** One job ["j1"] of type [ty] and the component ["c1"] it is for. *)
Definition componentStore (ty : string) : DB :=
  {| queueJob := {[ "j1" := componentJob ty ]};
     generation := ∅;
     component :=
       {[ "c1" := {| Component.componentData := Component.Initial "{}";
                     Component.updatedAt := 0 |} ]} |}.

Definition componentTick (ty : string) : Service * DB * Outcome :=
  processNextJob (tickWith answered) newService (componentStore ty).

(** A service whose cache holds the prompt of [buttonPayload]. *)
Definition warmService : Service :=
  with_requestCache
    {[ "button" := {| result_text := "<button/>"; timestamp := 0 |} ]}
    newService.

Definition laterTick : Env :=
  {| t_find := 200; t_start := 201; t_check := 202; t_reply := 203;
     t_record := 204; t_done := 205; reply := answered |}.

(** A failed tick, an enqueue, two more ticks. *)
Definition history : list Op :=
  [Tick (tickWith rateLimited);
   Enqueue "j2" 20 20 "ai_generation" buttonPayload None;
   Tick laterTick; Tick laterTick].

Definition afterHistory : Service * DB * list Outcome :=
  run 3 history newService (storeWith genJob).

Definition afterRetry : Service * DB * result unit :=
  retryJob "j1" 100 newService (storeWith (failedJob 3 3)).

Definition browserCookies : list (string * string) :=
  [("theme", "dark"); ("auth_token", "t0"); ("auth_token", "t1")].

Definition sessionTable : gmap string (Context.Session string) :=
  {[ "t1" := {| Context.expiresAt := 500; Context.sessionUser := "alice" |} ]}.

End Cases.

(** * Properties *)

(** ** The generation client *)

Section AIFacts.
Import AIService.

Lemma append_cons (c : ascii) (a b : string) :
  (String c a ++ b)%string = String c (a ++ b)%string.
Proof. reflexivity. Qed.

Lemma append_empty (b : string) : (EmptyString ++ b)%string = b.
Proof. reflexivity. Qed.

Lemma prefix_app (n s : string) :
  String.prefix n s = true ↔ ∃ post : string, s = (n ++ post)%string.
Proof.
  revert s. induction n as [|c n IH]; intros s.
  - split; [intros _; by exists s | by destruct s].
  - destruct s as [|c' s]; simpl.
    + split; [done | intros [post Hp]; discriminate].
    + destruct (Ascii.ascii_dec c c') as [->|Hne].
      * rewrite IH.
        split; intros [post Hp]; exists post;
          rewrite ?append_cons in *; congruence.
      * split; [done | intros [post Hp]; rewrite append_cons in Hp; congruence].
Qed.

Lemma includes_app (n s : string) :
  includes n s = true ↔ ∃ pre post : string, s = (pre ++ n ++ post)%string.
Proof.
  induction s as [|c s IH].
  - change (includes n EmptyString)
      with (String.prefix n EmptyString || false).
    rewrite orb_false_r, prefix_app. split.
    + intros [post Hp]. by exists EmptyString, post.
    + intros ([|c pre] & post & Hp); [by exists post | ].
      rewrite append_cons in Hp. discriminate.
  - change (includes n (String c s))
      with (String.prefix n (String c s) || includes n s).
    rewrite orb_true_iff, prefix_app, IH. split.
    + intros [[post Hp] | (pre & post & Hp)].
      * by exists EmptyString, post.
      * exists (String c pre), post. by rewrite append_cons, Hp.
    + intros ([|c' pre] & post & Hp).
      * left. by exists post.
      * right. exists pre, post. rewrite append_cons in Hp. congruence.
Qed.

Lemma toLowerCase_app (a b : string) :
  toLowerCase (a ++ b)%string = (toLowerCase a ++ toLowerCase b)%string.
Proof.
  induction a as [|c a IH]; [done|].
  rewrite append_cons. simpl. by rewrite IH, append_cons.
Qed.

Lemma toLowerCase_split (s a b : string) :
  toLowerCase s = (a ++ b)%string →
  ∃ a' b' : string,
    s = (a' ++ b')%string ∧ toLowerCase a' = a ∧ toLowerCase b' = b.
Proof.
  revert s. induction a as [|c a IH]; intros s Hs.
  - by exists EmptyString, s.
  - rewrite append_cons in Hs.
    destruct s as [|c' s]; simpl in Hs; [discriminate|].
    injection Hs as Hc Hs. destruct (IH s Hs) as (a' & b' & -> & Ha & Hb).
    exists (String c' a'), b'. simpl. by rewrite Hc, Ha.
Qed.

Lemma includes_lower_split (word text : string) :
  includes word (toLowerCase text) = true ↔
  ∃ pre mid post : string,
    text = (pre ++ mid ++ post)%string ∧ toLowerCase mid = word.
Proof.
  rewrite includes_app. split.
  - intros (pre & post & H).
    destruct (toLowerCase_split _ _ _ H) as (pre' & rest & -> & _ & Hrest).
    destruct (toLowerCase_split _ _ _ Hrest) as (mid & post' & -> & Hmid & _).
    by exists pre', mid, post'.
  - intros (pre & mid & post & -> & Hmid).
    exists (toLowerCase pre), (toLowerCase post).
    by rewrite !toLowerCase_app, Hmid.
Qed.

(** [lower_ascii] against the letter-by-letter reading: for a character [w]
    that lowering leaves alone, [c] lowers to [w] exactly when [c] is [w] or
    its capital. *)
Lemma lower_ascii_sameLetter (c w : ascii) :
  lower_ascii w = w → (lower_ascii c = w ↔ sameLetter c w).
Proof.
  unfold lower_ascii, sameLetter. cbv zeta.
  pose proof (N_ascii_bounded c) as Hc. pose proof (N_ascii_bounded w) as Hw.
  intros Hlow.
  assert (¬ (65 ≤ N_of_ascii w ≤ 90)%N) as Hnotcap.
  { intros [H1 H2].
    rewrite (proj2 (N.leb_le _ _) H1), (proj2 (N.leb_le _ _) H2) in Hlow.
    simpl in Hlow. apply (f_equal N_of_ascii) in Hlow.
    rewrite N_ascii_embedding in Hlow by lia. lia. }
  destruct (65 <=? N_of_ascii c)%N eqn:H1, (N_of_ascii c <=? 90)%N eqn:H2;
    simpl; try apply N.leb_le in H1; try apply N.leb_le in H2;
    try apply N.leb_gt in H1; try apply N.leb_gt in H2.
  - split.
    + intros <-. right. rewrite N_ascii_embedding by lia. lia.
    + intros [-> | [_ Heq]]; [lia|].
      rewrite Heq. apply ascii_N_embedding.
  - split; [by left | intros [-> | [? ?]]; [done | lia]].
  - split; [by left | intros [-> | [? ?]]; [done | lia]].
  - split; [by left | intros [-> | [? ?]]; [done | lia]].
Qed.

Lemma toLowerCase_spells (mid word : string) :
  toLowerCase word = word → (toLowerCase mid = word ↔ spells mid word).
Proof.
  revert word. induction mid as [|c mid IH]; intros [|w word] Hword; simpl;
    try (split; [discriminate | done]); [done|].
  simpl in Hword. injection Hword as Hw Hword.
  rewrite <- (lower_ascii_sameLetter c w Hw), <- (IH word Hword).
  split; [intros [= ? ?] | intros [? ?]]; [done | congruence].
Qed.

Lemma includes_lower_mentions (word text : string) :
  toLowerCase word = word →
  (includes word (toLowerCase text) = true ↔ mentions word text).
Proof.
  intros Hword. rewrite includes_lower_split. unfold mentions.
  split; intros (pre & mid & post & Htext & Hmid); exists pre, mid, post;
    (split; [done | by apply (toLowerCase_spells mid word Hword)]).
Qed.

Lemma hasIssues_mentions (text : string) :
  hasIssues text = true ↔ mentions "issue" text ∨ mentions "error" text.
Proof.
  unfold hasIssues.
  by rewrite orb_true_iff, !includes_lower_mentions.
Qed.

(** C10.  When the reply has a first content block: if that block is text
    that contains "issue" or "error" in any letter case, [validateComponent]
    returns [valid = false] with [issues] the one-element list holding the
    whole text; if it is text that contains neither, or is not text at all,
    [validateComponent] returns [valid = true] with no issues.  So
    [valid = false] exactly when the text contains one of the two words. *)
Theorem validateComponent_verdict (r : Response) (b : ContentBlock)
    (rest : list ContentBlock) :
  content r = b :: rest →
  (∀ text,
      b = TextBlock text →
      mentions "issue" text ∨ mentions "error" text →
      validateComponent (Replies r) = Ok (false, [text])) ∧
  (∀ text,
      b = TextBlock text →
      ¬ (mentions "issue" text ∨ mentions "error" text) →
      validateComponent (Replies r) = Ok (true, [])) ∧
  (b = OtherBlock → validateComponent (Replies r) = Ok (true, [])).
Proof.
  intros Hc. unfold validateComponent. rewrite Hc.
  split; [|split].
  - intros text -> Hm. apply hasIssues_mentions in Hm. by rewrite Hm.
  - intros text -> Hm. rewrite <- hasIssues_mentions in Hm.
    apply not_true_is_false in Hm. by rewrite Hm.
  - by intros ->.
Qed.

Lemma validateComponent_verdict_witness :
  validateComponent
    (Replies {| content := [TextBlock "No ISSUES found"];
                input_tokens := 40; output_tokens := 9 |})
  = Ok (false, ["No ISSUES found"]).
Proof.
  apply (proj1 (validateComponent_verdict
                  {| content := [TextBlock "No ISSUES found"];
                     input_tokens := 40; output_tokens := 9 |}
                  (TextBlock "No ISSUES found") [] eq_refl)
           "No ISSUES found" eq_refl).
  left. exists "No ", "ISSUE", "S found". split; [reflexivity|].
  simpl. unfold sameLetter. simpl.
  repeat split; right; (split; [lia | reflexivity]).
Defined.

End AIFacts.

Section CacheFacts.
Import AIService.

Lemma sweep_lookup_fresh (p text : string) (t1 : Z)
    (cache : gmap string CacheEntry) :
  sweep t1 (<[p := {| result_text := text; timestamp := t1 |}]> cache) !! p
  = Some {| result_text := text; timestamp := t1 |}.
Proof.
  unfold sweep. apply map_lookup_filter_Some. split.
  - apply lookup_insert_eq.
  - simpl. unfold TTL. lia.
Qed.

Lemma generateFresh_text (p : string) (t1 : Z) (r : Response) (text : string)
    (rest : list ContentBlock) (cache : gmap string CacheEntry) :
  content r = TextBlock text :: rest →
  generateFresh p t1 (Replies r) cache
  = (sweep t1 (<[p := {| result_text := text; timestamp := t1 |}]> cache),
     Ok (text, input_tokens r + output_tokens r)).
Proof. intros Hc. unfold generateFresh. by rewrite Hc. Qed.

(** C5.  A call with a prompt the cache does not hold, answered with text
    and a nonzero token count, returns that text with nonzero [tokensUsed].
    A repeat with the same prompt less than [TTL] (one hour) after the entry
    was stored returns the same text with [tokensUsed = 0] and leaves the
    cache as it is, whatever the provider would have said.  A repeat once
    [TTL] has elapsed goes to the provider again and reports its nonzero
    token count. *)
Theorem generateComponent_cache (p : string) (t0 t1 : Z) (r : Response)
    (text : string) (rest : list ContentBlock)
    (cache : gmap string CacheEntry) :
  cache !! p = None →
  content r = TextBlock text :: rest →
  input_tokens r + output_tokens r ≠ 0 →
  ∃ cache1 tokens,
    generateComponent (Some p) t0 t1 (Replies r) cache
    = (cache1, Ok (text, tokens)) ∧
    tokens ≠ 0 ∧
    (∀ t0' t1' reply',
        t0' - t1 < TTL →
        generateComponent (Some p) t0' t1' reply' cache1
        = (cache1, Ok (text, 0))) ∧
    (∀ t0' t1' r' text' rest',
        TTL ≤ t0' - t1 →
        content r' = TextBlock text' :: rest' →
        input_tokens r' + output_tokens r' ≠ 0 →
        ∃ cache2 tokens',
          generateComponent (Some p) t0' t1' (Replies r') cache1
          = (cache2, Ok (text', tokens')) ∧ tokens' ≠ 0).
Proof.
  intros Hnew Hc Htok.
  eexists _, _. split; [|split; [exact Htok|split]].
  - unfold generateComponent. rewrite Hnew. by apply generateFresh_text with rest.
  - intros t0' t1' reply' Hage.
    unfold generateComponent. rewrite sweep_lookup_fresh. simpl.
    by rewrite bool_decide_eq_true_2.
  - intros t0' t1' r' text' rest' Hage Hc' Htok'.
    eexists _, _. split; [|exact Htok'].
    unfold generateComponent. rewrite sweep_lookup_fresh. simpl.
    rewrite bool_decide_eq_false_2 by lia.
    by apply generateFresh_text with rest'.
Qed.

Lemma generateComponent_cache_witness :
  ∃ cache1 tokens,
    generateComponent (Some "button") 100 250
      (Replies {| content := [TextBlock "<button/>"];
                  input_tokens := 120; output_tokens := 30 |}) ∅
    = (cache1, Ok ("<button/>", tokens)) ∧
    tokens ≠ 0 ∧
    (∀ t0' t1' reply',
        t0' - 250 < TTL →
        generateComponent (Some "button") t0' t1' reply' cache1
        = (cache1, Ok ("<button/>", 0))) ∧
    (∀ t0' t1' r' text' rest',
        TTL ≤ t0' - 250 →
        content r' = TextBlock text' :: rest' →
        input_tokens r' + output_tokens r' ≠ 0 →
        ∃ cache2 tokens',
          generateComponent (Some "button") t0' t1' (Replies r') cache1
          = (cache2, Ok (text', tokens')) ∧ tokens' ≠ 0).
Proof.
  apply (generateComponent_cache "button" 100 250
           {| content := [TextBlock "<button/>"];
              input_tokens := 120; output_tokens := 30 |}
           "<button/>" [] ∅).
  - reflexivity.
  - reflexivity.
  - simpl. lia.
Defined.

End CacheFacts.

(** ** The queue service *)

Section QueueFacts.
Import AIService QueueService.

(** *** [findFirst] *)

Lemma foldl_pick_in (l : list (string * QueueJob)) best kv :
  foldl pick best l = Some kv → best = Some kv ∨ kv ∈ l.
Proof.
  revert best. induction l as [|x l IH]; intros best H; simpl in H.
  - by left.
  - destruct (IH _ H) as [Hb | Hin].
    + unfold pick in Hb. destruct best as [b|].
      * destruct (before x.2 b.2); simplify_eq; [right; left | by left].
      * simplify_eq. right; left.
    + right. by right.
Qed.

Lemma foldl_pick_Some (l : list (string * QueueJob)) b :
  ∃ kv, foldl pick (Some b) l = Some kv.
Proof.
  revert b. induction l as [|x l IH]; intros b; simpl.
  - by exists b.
  - destruct (before x.2 b.2); apply IH.
Qed.

Lemma before_irrefl (a : QueueJob) : before a a = false.
Proof. unfold before. lia. Qed.

Lemma before_keeps (x kv b : QueueJob) :
  before x b = false → before kv b = true → before x kv = false.
Proof. unfold before. lia. Qed.

Lemma foldl_pick_best (l seen : list (string * QueueJob)) best kv :
  foldl pick best l = Some kv →
  match best with
  | Some b => ∀ x, x ∈ seen → before x.2 b.2 = false
  | None => seen = []
  end →
  ∀ x, x ∈ seen ++ l → before x.2 kv.2 = false.
Proof.
  revert seen best. induction l as [|y l IH]; intros seen best H Hseen x Hx.
  - rewrite app_nil_r in Hx. simpl in H. subst best. by apply Hseen.
  - simpl in H.
    apply (IH (seen ++ [y]) _ H); [|by rewrite <- app_assoc].
    unfold pick. destruct best as [b0|].
    + destruct (before y.2 b0.2) eqn:Hy;
        intros z [Hz | Hz%list_elem_of_singleton]%elem_of_app; subst.
      * apply before_keeps with b0.2; [by apply Hseen | done].
      * apply before_irrefl.
      * by apply Hseen.
      * done.
    + subst seen. intros z [Hz | Hz%list_elem_of_singleton]%elem_of_app.
      * by apply elem_of_nil in Hz.
      * subst. apply before_irrefl.
Qed.

Lemma findFirst_Some (now : Z) (q : gmap string QueueJob) id job :
  findFirst now q = Some (id, job) →
  q !! id = Some job ∧ status job = Pending ∧ scheduledFor job ≤ now.
Proof.
  intros H. apply foldl_pick_in in H as [H | H]; [done|].
  apply list_elem_of_filter in H as [Hel Hin]. simpl in Hel.
  apply elem_of_map_to_list in Hin. split; [done|].
  unfold eligible in Hel. apply andb_true_iff in Hel as [Hs Ht].
  apply bool_decide_eq_true in Hs. split; [done | lia].
Qed.

(** The row [findFirst] returns is first in the ordering: no eligible row
    comes strictly before it. *)
Lemma findFirst_best (now : Z) (q : gmap string QueueJob) id job :
  findFirst now q = Some (id, job) →
  ∀ id' job', q !! id' = Some job' → eligible now job' = true →
              before job' job = false.
Proof.
  intros H id' job' Hin Hel.
  apply (foldl_pick_best _ [] None (id, job) H eq_refl (id', job')).
  simpl. apply list_elem_of_filter. split; [done|].
  by apply elem_of_map_to_list.
Qed.

Lemma findFirst_None (now : Z) (q : gmap string QueueJob) :
  findFirst now q = None →
  ∀ id job, q !! id = Some job → eligible now job = false.
Proof.
  intros H id job Hin. destruct (eligible now job) eqn:Hel; [|done].
  assert (Hmem : (id, job) ∈
            filter (λ kv, eligible now kv.2 = true) (map_to_list q)).
  { apply list_elem_of_filter. split; [done | by apply elem_of_map_to_list]. }
  unfold findFirst in H.
  destruct (filter _ (map_to_list q)) as [|x l]; [by apply elem_of_nil in Hmem|].
  simpl in H. destruct (foldl_pick_Some l x) as [kv Hkv]. congruence.
Qed.

(** A row that comes strictly before every other eligible row is the one
    [findFirst] returns. *)
Lemma findFirst_strict_best (now : Z) (q : gmap string QueueJob) id job :
  q !! id = Some job → eligible now job = true →
  (∀ id' job', id' ≠ id → q !! id' = Some job' → eligible now job' = true →
               before job job' = true) →
  findFirst now q = Some (id, job).
Proof.
  intros Hin Hel Hbest.
  destruct (findFirst now q) as [[id2 job2]|] eqn:Hf.
  - destruct (findFirst_Some _ _ _ _ Hf) as (Hin2 & _ & _).
    pose proof (findFirst_best _ _ _ _ Hf id job Hin Hel) as Hnb.
    destruct (decide (id2 = id)) as [->|Hne]; [congruence|].
    assert (eligible now job2 = true) as Hel2.
    { apply foldl_pick_in in Hf as [Hf | Hf]; [done|].
      by apply list_elem_of_filter in Hf as [Hf _]. }
    rewrite (Hbest id2 job2 Hne Hin2 Hel2) in Hnb. done.
  - by rewrite (findFirst_None _ _ Hf id job Hin) in Hel.
Qed.

(** *** [processNextJob] *)

Lemma update_Some {A : Type} (k : string) (f : A → A) (tbl : gmap string A)
    (row : A) :
  tbl !! k = Some row → Prisma.update (Some k) f tbl = Ok (<[k := f row]> tbl).
Proof. intros H. unfold Prisma.update. by rewrite H. Qed.

Lemma with_processing_idle (s : Service) :
  processing s = false → with_processing false s = s.
Proof. destruct s; simpl. by intros ->. Qed.

(** No handler writes to the job table. *)
Lemma executeJob_queueJob env job cache d :
  queueJob (executeJob env job cache d).1.2 = queueJob d.
Proof.
  unfold executeJob, handleAIGeneration, handleAIImprovement,
    handleAIValidation.
  repeat case_match; simplify_eq; done.
Qed.

Lemma runJob_row env id job s d row :
  queueJob d !! id = Some row →
  ∃ cache d1 r,
    executeJob env job (requestCache s) d = (cache, d1, r) ∧
    queueJob d1 = queueJob d ∧
    runJob env id job s d
    = (with_processing false
         (noteFailure env id r (with_requestCache cache s)),
       with_queueJob (<[id := outcomeWrite env job r row]> (queueJob d)) d1,
       Executed id r).
Proof.
  intros Hrow. unfold runJob.
  pose proof (executeJob_queueJob env job (requestCache s) d) as Hq.
  destruct (executeJob env job (requestCache s) d) as [[cache d1] r].
  simpl in Hq. exists cache, d1, r. split; [done|]. split; [done|].
  unfold settle, failJob. rewrite Hq.
  destruct r as [[]|msg]; by rewrite (update_Some _ _ _ _ Hrow).
Qed.

Lemma processNextJob_cases env s d :
  processing s = false → TickCase env s d (processNextJob env s d).
Proof.
  intros Hidle. unfold processNextJob, selectJob. rewrite Hidle.
  rewrite (with_processing_idle _ Hidle).
  destruct (findFirst (t_find env) (queueJob d)) as [[id job]|] eqn:Hf.
  - case_bool_decide as Hseen.
    + by eapply tick_seen.
    + destruct (findFirst_Some _ _ _ _ Hf) as (Hrow & _ & _).
      unfold claimJob. rewrite (update_Some _ _ _ _ Hrow).
      set (s1 := with_processedJobs _ s).
      set (d1 := with_queueJob _ d).
      destruct (runJob_row env id job s1 d1 (toProcessing (t_start env) job))
        as (cache & d2 & r & Hexec & Hq & ->).
      { subst d1. simpl. apply lookup_insert_eq. }
      subst d1. simpl. rewrite insert_insert_eq.
      by eapply tick_run.
  - by apply tick_none.
Qed.

Lemma processNextJob_skipped env s d :
  processing s = true → processNextJob env s d = (s, d, Skipped).
Proof. intros H. unfold processNextJob. by rewrite H. Qed.

End QueueFacts.

Section Lifecycle.
Import AIService QueueService.

Lemma tick_run_inv env s d id job :
  processing s = false →
  findFirst (t_find env) (queueJob d) = Some (id, job) →
  id ∉ processedJobs s →
  ∃ cache d1 r,
    executeJob env job (requestCache s)
      (with_queueJob (<[id := toProcessing (t_start env) job]> (queueJob d)) d)
    = (cache, d1, r) ∧
    processNextJob env s d
    = (afterRun env id r cache s,
       with_queueJob
         (<[id := outcomeWrite env job r (toProcessing (t_start env) job)]>
            (queueJob d)) d1,
       Executed id r).
Proof.
  intros Hidle Hf Hnew.
  pose proof (processNextJob_cases env s d Hidle) as Hc.
  inversion Hc as [Hnone | id0 job0 Hf0 Hseen | id0 job0 cache d1 r Hf0 _ Hexec];
    simplify_eq; [done|].
  by eexists _, _, _.
Qed.

Lemma tick_executed env s d s' d' id r job :
  processNextJob env s d = (s', d', Executed id r) →
  queueJob d !! id = Some job →
  processing s = false ∧ (id ∉ processedJobs s) ∧
  findFirst (t_find env) (queueJob d) = Some (id, job) ∧
  queueJob d'
  = (<[id := outcomeWrite env job r (toProcessing (t_start env) job)]>
       (queueJob d)) ∧
  processedJobs s' = {[id]} ∪ processedJobs s ∧
  processing s' = false.
Proof.
  intros Htick Hrow.
  destruct (processing s) eqn:Hidle.
  { rewrite processNextJob_skipped in Htick by done. simplify_eq. }
  pose proof (processNextJob_cases env s d Hidle) as Hc.
  rewrite Htick in Hc.
  inversion Hc as [| | id0 job0 cache d1 r0 Hf0 Hnew Hexec]; simplify_eq.
  destruct (findFirst_Some _ _ _ _ Hf0) as (Hrow0 & _ & _). simplify_eq.
  destruct r; done.
Qed.

Lemma executeJob_unrecognized env job cache d :
  recognized (type job) = false → executeJob env job cache d = (cache, d, Ok ()).
Proof.
  unfold recognized, executeJob. intros H.
  apply orb_false_iff in H as [H H3]. apply orb_false_iff in H as [H1 H2].
  by rewrite H1, H2, H3.
Qed.

(** C2, as the code has it.  When a tick claims a job whose type has no
    [case] in [executeJob], nothing is thrown: the tick ends with the job
    [Completed], [completedAt] set, [error] and [attempts] as they were, no
    handler write and no entry in [failedJobsCache]. *)
Theorem unknown_type_completes env s d id job :
  processing s = false →
  findFirst (t_find env) (queueJob d) = Some (id, job) →
  id ∉ processedJobs s →
  recognized (type job) = false →
  ∃ s' d' row,
    processNextJob env s d = (s', d', Executed id (Ok ())) ∧
    queueJob d' !! id = Some row ∧
    status row = Completed ∧
    completedAt row = Some (t_done env) ∧
    error row = error job ∧
    attempts row = attempts job ∧
    generation d' = generation d ∧
    component d' = component d ∧
    failedJobsCache s' = failedJobsCache s.
Proof.
  intros Hidle Hf Hnew Hty.
  destruct (tick_run_inv env s d id job Hidle Hf Hnew)
    as (cache & d1 & r & Hexec & Htick).
  rewrite executeJob_unrecognized in Hexec by done. simplify_eq.
  eexists _, _, _. split; [exact Htick|].
  simpl. rewrite lookup_insert_eq. done.
Qed.

(** *** The retry path *)

Lemma outcomeWrite_retry env job msg row :
  attempts job + 1 < maxAttempts job →
  outcomeWrite env job (Throw msg) row
  = toRetry (attempts job + 1) msg (t_done env) row.
Proof.
  intros H. unfold outcomeWrite, failureWrite. simpl.
  by rewrite (proj2 (Z.ltb_lt _ _) H).
Qed.


(** A failed execution with attempts left: back to [Pending], one more
    attempt on the record, due [retryDelay] after the write. *)
Lemma retry_is_scheduled env s d s' d' id job msg :
  processNextJob env s d = (s', d', Executed id (Throw msg)) →
  queueJob d !! id = Some job →
  attempts job + 1 < maxAttempts job →
  ∃ row,
    queueJob d' !! id = Some row ∧
    status row = Pending ∧
    attempts row = attempts job + 1 ∧
    error row = Some msg ∧
    scheduledFor row = t_done env + retryDelay ∧
    t_done env < scheduledFor row.
Proof.
  intros Htick Hrow Hleft.
  destruct (tick_executed _ _ _ _ _ _ _ _ Htick Hrow)
    as (_ & _ & _ & -> & _ & _).
  rewrite outcomeWrite_retry by done.
  eexists. rewrite lookup_insert_eq. split; [done|].
  simpl. unfold retryDelay. repeat split; lia.
Qed.

End Lifecycle.

Section Frames.
Import AIService QueueService.

(** *** What an operation leaves alone *)

Lemma afterRun_processedJobs env id r cache s :
  processedJobs (afterRun env id r cache s) = {[id]} ∪ processedJobs s.
Proof. unfold afterRun, noteFailure. by destruct r. Qed.

Lemma afterRun_processing env id r cache s :
  processing (afterRun env id r cache s) = false.
Proof. done. Qed.


Lemma tick_frame env s d s' d' o id row :
  processNextJob env s d = (s', d', o) →
  queueJob d !! id = Some row →
  (∀ r, o ≠ Executed id r) →
  queueJob d' !! id = Some row ∧
  (id ∈ processedJobs s → id ∈ processedJobs s').
Proof.
  intros Htick Hrow Hother.
  destruct (processing s) eqn:Hidle.
  { rewrite processNextJob_skipped in Htick by done. by simplify_eq. }
  pose proof (processNextJob_cases env s d Hidle) as Hc. rewrite Htick in Hc.
  inversion Hc as [| | id0 job0 cache d1 r0 Hf0 Hnew Hexec]; simplify_eq;
    [done | done |].
  assert (id0 ≠ id) by (intros ->; by eapply Hother).
  rewrite afterRun_processedJobs. simpl.
  rewrite lookup_insert_ne by done. split; [done | set_solver].
Qed.

Lemma addJob_frame dma id0 t_created now ty pl prio d id row :
  queueJob d !! id = Some row →
  queueJob (addJob dma id0 t_created now ty pl prio d).1 !! id = Some row.
Proof.
  intros Hrow. unfold addJob, Prisma.create.
  destruct (queueJob d !! id0) eqn:Hid0; simpl; [done|].
  rewrite lookup_insert_ne; [done | congruence].
Qed.

Lemma retryJob_frame jobId now s d s' d' r id row :
  retryJob jobId now s d = (s', d', r) →
  queueJob d !! id = Some row →
  jobId ≠ id ∨ status row ≠ Failed →
  queueJob d' !! id = Some row ∧
  (id ∈ processedJobs s → id ∈ processedJobs s') ∧
  processing s' = processing s.
Proof.
  intros Hretry Hrow Hor. unfold retryJob in Hretry.
  destruct (queueJob d !! jobId) as [job|] eqn:Hjob; [|by simplify_eq].
  case_bool_decide as Hst; [|by simplify_eq].
  rewrite (update_Some _ _ _ _ Hjob) in Hretry. simplify_eq.
  assert (jobId ≠ id) as Hne by (destruct Hor; [done | congruence]).
  simpl. rewrite lookup_insert_ne by done.
  split; [done|]. split; [set_solver | done].
Qed.



(** A row that is not [Pending] changes only through [retryJob] on it. *)
Lemma step_keeps_settled dma op s d s' d' o id row :
  step dma op s d = (s', d', o) →
  queueJob d !! id = Some row →
  status row ≠ Pending →
  (∀ now, op ≠ Retry id now) →
  queueJob d' !! id = Some row.
Proof.
  intros Hstep Hrow Hst Hop. destruct op as [id0 tc now ty pl prio|env|jobId now];
    simpl in Hstep.
  - simplify_eq. by apply addJob_frame.
  - destruct (processNextJob env s d) as [[s1 d1] o1] eqn:Htick. simplify_eq.
    eapply tick_frame; [done | done |].
    intros r ->.
    destruct (tick_executed _ _ _ _ _ _ _ _ Htick Hrow) as (_ & _ & Hf & _).
    by destruct (findFirst_Some _ _ _ _ Hf) as (_ & ? & _).
  - destruct (retryJob jobId now s d) as [[s1 d1] r1] eqn:Hretry. simplify_eq.
    eapply retryJob_frame; [done | done |].
    left. intros ->. by eapply Hop.
Qed.


End Frames.

Section Claims.
Import AIService QueueService Invariant Scenario.






(** *** Manual retry *)

(** C8.  [retryJob] throws "Job not found or not in failed state" and
    changes neither the store nor the service when the job is absent or not
    [Failed]; on a [Failed] job it writes [Pending], [attempts = 0], no
    [error], no [startedAt], no [completedAt], and takes the id out of
    [processedJobs]; the other rows stay. *)
Theorem retryJob_contract jobId now s d :
  (queueJob d !! jobId = None ∨
   (∃ job, queueJob d !! jobId = Some job ∧ status job ≠ Failed) →
   retryJob jobId now s d = (s, d, Throw not_found_or_not_failed)) ∧
  (∀ job,
      queueJob d !! jobId = Some job → status job = Failed →
      ∃ s' d' row,
        retryJob jobId now s d = (s', d', Ok ()) ∧
        queueJob d' !! jobId = Some row ∧
        status row = Pending ∧
        attempts row = 0 ∧
        error row = None ∧
        startedAt row = None ∧
        completedAt row = None ∧
        scheduledFor row = now ∧
        (jobId ∉ processedJobs s') ∧
        (∀ id, id ≠ jobId → queueJob d' !! id = queueJob d !! id)).
Proof.
  split.
  - intros [Hnone | (job & Hjob & Hst)]; unfold retryJob.
    + by rewrite Hnone.
    + rewrite Hjob. by rewrite bool_decide_eq_false_2.
  - intros job Hjob Hst. unfold retryJob.
    rewrite Hjob, bool_decide_eq_true_2, (update_Some _ _ _ _ Hjob) by done.
    eexists _, _, _. split; [done|]. simpl.
    rewrite lookup_insert_eq. repeat split; try done.
    + intros [_ Hne]%elem_of_difference. apply Hne. by apply elem_of_singleton.
    + intros id Hne. by rewrite lookup_insert_ne.
Qed.

Lemma retryJob_contract_witness :
  retryJob "j1" 100 newService (storeWith (pendingJob "ai_generation" 1 3))
  = (newService, storeWith (pendingJob "ai_generation" 1 3),
     Throw not_found_or_not_failed) ∧
  ∃ s' d' row,
    retryJob "j1" 100 newService (storeWith (failedJob 3 3)) = (s', d', Ok ()) ∧
    queueJob d' !! "j1" = Some row ∧
    status row = Pending ∧
    attempts row = 0 ∧
    error row = None ∧
    startedAt row = None ∧
    completedAt row = None ∧
    scheduledFor row = 100 ∧
    ("j1" ∉ processedJobs s') ∧
    (∀ id, id ≠ "j1" →
           queueJob d' !! id = queueJob (storeWith (failedJob 3 3)) !! id).
Proof.
  split.
  - apply (retryJob_contract "j1" 100 newService
             (storeWith (pendingJob "ai_generation" 1 3))).
    right. exists (pendingJob "ai_generation" 1 3).
    split; [vm_compute; reflexivity | vm_compute; discriminate].
  - apply (proj2 (retryJob_contract "j1" 100 newService
                    (storeWith (failedJob 3 3))) (failedJob 3 3)).
    + vm_compute. reflexivity.
    + reflexivity.
Defined.

(** *** The bound on [attempts] *)







(** *** The Result Record of a generation job *)

Lemma handleAIGeneration_record env job cache d gid p g :
  generationId (payload job) = Some gid →
  prompt (payload job) = Some p →
  generation d !! gid = Some g →
  ∃ cache' r,
    generateComponent (Some p) (t_check env) (t_reply env) (reply env) cache
    = (cache', r) ∧
    match r with
    | Ok (text, tokens) =>
        handleAIGeneration env job cache d
        = (cache',
           with_generation
             (<[gid := Generation.completed text tokens (t_record env) g]>
                (generation d)) d,
           Ok ())
    | Throw msg =>
        handleAIGeneration env job cache d
        = (cache',
           with_generation
             (<[gid := Generation.failed (t_record env) g]> (generation d)) d,
           Throw msg)
    end.
Proof.
  intros Hgid Hp Hg. unfold handleAIGeneration. rewrite Hgid, Hp.
  destruct (generateComponent _ _ _ _ _) as [cache' [[text tokens]|msg]].
  - exists cache', (Ok (text, tokens)). split; [done|].
    by rewrite (update_Some _ _ _ _ Hg).
  - exists cache', (Throw msg). split; [done|].
    by rewrite (update_Some _ _ _ _ Hg).
Qed.

(** C6, as the code has it.  For an executed generation job whose payload
    names the prompt and an existing generation row: on success the row holds
    [Completed], the generated text and [tokensUsed]; on every failure of the
    handler the row is marked [Failed], both when the job goes back to
    [Pending] for a retry and when it is [Failed] for good. *)
Theorem generation_record_outcome env s d s' d' id r job gid p g :
  processNextJob env s d = (s', d', Executed id r) →
  queueJob d !! id = Some job →
  type job = "ai_generation" →
  generationId (payload job) = Some gid →
  prompt (payload job) = Some p →
  generation d !! gid = Some g →
  match r with
  | Ok _ =>
      ∃ cache' text tokens,
        generateComponent (Some p) (t_check env) (t_reply env) (reply env)
          (requestCache s)
        = (cache', Ok (text, tokens)) ∧
        generation d' !! gid
        = Some {| Generation.status := Completed;
                  Generation.result := Some text;
                  Generation.tokensUsed := Some tokens;
                  Generation.completedAt := Some (t_record env) |}
  | Throw msg =>
      ∃ row g',
        queueJob d' !! id = Some row ∧
        status row = (if attempts job + 1 <? maxAttempts job
                      then Pending else Failed) ∧
        generation d' !! gid = Some g' ∧
        Generation.status g' = Failed
  end.
Proof.
  intros Htick Hrow Hty Hgid Hp Hg.
  destruct (tick_executed _ _ _ _ _ _ _ _ Htick Hrow)
    as (Hidle & Hnew & Hf & Hq & _ & _).
  destruct (tick_run_inv env s d id job Hidle Hf Hnew)
    as (cache & d1 & r1 & Hexec & Htick').
  rewrite Htick in Htick'. simplify_eq.
  unfold executeJob in Hexec. rewrite Hty in Hexec. simpl in Hexec.
  set (dm := with_queueJob _ d) in Hexec.
  destruct (handleAIGeneration_record env job (requestCache s) dm gid p g
              Hgid Hp Hg) as (cache' & r & Hgen & Hh).
  destruct r as [[text tokens]|msg]; rewrite Hh in Hexec; simplify_eq.
  - exists cache, text, tokens. split; [done|].
    simpl. by rewrite lookup_insert_eq.
  - eexists _, _. simpl. rewrite !lookup_insert_eq.
    repeat split; try done.
    unfold outcomeWrite, failureWrite. by destruct (_ <? _).
Qed.

Lemma generation_record_outcome_witness :
  ∃ row g',
    queueJob (processNextJob (tickWith rateLimited) newService
                (storeWith (pendingJob "ai_generation" 0 3))).1.2 !! "j1"
    = Some row ∧
    status row = (if attempts (pendingJob "ai_generation" 0 3) + 1
                       <? maxAttempts (pendingJob "ai_generation" 0 3)
                  then Pending else Failed) ∧
    generation (processNextJob (tickWith rateLimited) newService
                  (storeWith (pendingJob "ai_generation" 0 3))).1.2 !! "g1"
    = Some g' ∧
    Generation.status g' = Failed.
Proof.
  apply (generation_record_outcome (tickWith rateLimited) newService
           (storeWith (pendingJob "ai_generation" 0 3))
           (processNextJob (tickWith rateLimited) newService
              (storeWith (pendingJob "ai_generation" 0 3))).1.1
           _ "j1" (Throw failed_to_generate)
           (pendingJob "ai_generation" 0 3) "g1" "button" pendingGeneration).
  - vm_compute. reflexivity.
  - vm_compute. reflexivity.
  - reflexivity.
  - reflexivity.
  - reflexivity.
  - vm_compute. reflexivity.
Defined.

Lemma retried_failure_marks_record_failed :
  ∃ row g',
    attempts (pendingJob "ai_generation" 0 3) + 1
    < maxAttempts (pendingJob "ai_generation" 0 3) ∧
    queueJob (processNextJob (tickWith rateLimited) newService
                (storeWith (pendingJob "ai_generation" 0 3))).1.2 !! "j1"
    = Some row ∧
    status row = Pending ∧
    generation (processNextJob (tickWith rateLimited) newService
                  (storeWith (pendingJob "ai_generation" 0 3))).1.2 !! "g1"
    = Some g' ∧
    Generation.status g' = Failed.
Proof. vm_compute. eexists _, _. repeat split. Qed.

(** *** Unrecognized types *)

Lemma unknown_type_completes_witness :
  ∃ s' d' row,
    processNextJob (tickWith answered) newService
      (storeWith (pendingJob "video_render" 0 3))
    = (s', d', Executed "j1" (Ok ())) ∧
    queueJob d' !! "j1" = Some row ∧
    status row = Completed ∧
    completedAt row = Some (t_done (tickWith answered)) ∧
    error row = error (pendingJob "video_render" 0 3) ∧
    attempts row = attempts (pendingJob "video_render" 0 3) ∧
    generation d' = generation (storeWith (pendingJob "video_render" 0 3)) ∧
    component d' = component (storeWith (pendingJob "video_render" 0 3)) ∧
    failedJobsCache s' = failedJobsCache newService.
Proof.
  apply (unknown_type_completes (tickWith answered) newService
           (storeWith (pendingJob "video_render" 0 3)) "j1"
           (pendingJob "video_render" 0 3)).
  - reflexivity.
  - vm_compute. reflexivity.
  - apply not_elem_of_empty.
  - reflexivity.
Defined.

Lemma unknown_type_not_failed :
  recognized "video_render" = false ∧
  ∃ row,
    queueJob (processNextJob (tickWith answered) newService
                (storeWith (pendingJob "video_render" 0 3))).1.2 !! "j1"
    = Some row ∧
    status row = Completed ∧
    status row ≠ Failed ∧
    error row = None.
Proof. split; [reflexivity|]. vm_compute. eexists. repeat split. done. Qed.

(** *** The delay of a retry *)

(** C3.  The retry of a job that failed with 0, 1 or 3 earlier attempts is
    scheduled the same 5000 ms after the write: the delay does not grow with
    the attempt count. *)
Theorem retry_delay_is_fixed :
  (scheduledFor <$>
     queueJob (processNextJob (tickWith rateLimited) newService
                 (storeWith (pendingJob "ai_generation" 0 5))).1.2 !! "j1")
  = Some (t_done (tickWith rateLimited) + 5000) ∧
  (scheduledFor <$>
     queueJob (processNextJob (tickWith rateLimited) newService
                 (storeWith (pendingJob "ai_generation" 1 5))).1.2 !! "j1")
  = Some (t_done (tickWith rateLimited) + 5000) ∧
  (scheduledFor <$>
     queueJob (processNextJob (tickWith rateLimited) newService
                 (storeWith (pendingJob "ai_generation" 3 5))).1.2 !! "j1")
  = Some (t_done (tickWith rateLimited) + 5000).
Proof. vm_compute. done. Qed.

(** *** Two workers *)

Lemma runJob_processing env id job s d b :
  runJob env id job (with_processing b s) d = runJob env id job s d.
Proof.
  unfold runJob. simpl.
  destruct (executeJob env job (requestCache s) d) as [[cache d1] r].
  unfold settle, failJob. simpl.
  destruct (queueJob d1 !! id); destruct r; reflexivity.
Qed.

Lemma claimJob_processing now id s d b :
  claimJob now id (with_processing b s) d
  = match claimJob now id s d with
    | Ok (s1, d1) => Ok (with_processing b s1, d1)
    | Throw msg => Throw msg
    end.
Proof.
  unfold claimJob.
  by destruct (Prisma.update (Some id) (toProcessing now) (queueJob d)).
Qed.

(** One worker that is not interleaved with another goes through the three
    stretches exactly as [processNextJob] does. *)
Lemma procStep_sequential env s d :
  processing s = false →
  let '(p1, d1) := procStep (Find (t_find env))
                     {| service := s; phase := Idle |} d in
  let '(p2, d2) := procStep (Mark (t_start env)) p1 d1 in
  let '(p3, d3) := procStep (Run env) p2 d2 in
  (service p3, phase p3, d3)
  = ((processNextJob env s d).1.1, Idle, (processNextJob env s d).1.2).
Proof.
  intros Hidle. unfold processNextJob. rewrite Hidle.
  unfold procStep at 1. cbn [phase service]. rewrite Hidle.
  destruct (selectJob (t_find env) s d) as [|id|id job]; [done | done |].
  cbv beta iota zeta. unfold procStep at 1. cbn [phase service].
  rewrite claimJob_processing.
  destruct (claimJob (t_start env) id s d) as [[s1 d1]|msg].
  - cbv beta iota zeta. unfold procStep. cbn [phase service].
    rewrite runJob_processing.
    by destruct (runJob env id job s1 d1) as [[s2 d2] o].
  - cbv beta iota zeta. unfold procStep. cbn. by destruct s.
Qed.

(** C1.  Two workers over a store with the one pending job ["j1"]: when both
    run [findFirst] before either writes, both mark the job and both hold it
    as claimed. *)
Theorem racing_workers_claim_same_job :
  (∃ id, findFirst 10 (queueJob (store twoWorkers))
         = Some (id, pendingJob "ai_generation" 0 3) ∧ id = "j1") ∧
  phase (procA (schedule racingClaims twoWorkers))
  = Claimed "j1" (pendingJob "ai_generation" 0 3) ∧
  phase (procB (schedule racingClaims twoWorkers))
  = Claimed "j1" (pendingJob "ai_generation" 0 3) ∧
  "j1" ∈ processedJobs (service (procA (schedule racingClaims twoWorkers))) ∧
  "j1" ∈ processedJobs (service (procB (schedule racingClaims twoWorkers))).
Proof.
  split; [exists "j1"; split; [vm_compute|]; reflexivity|].
  split; [vm_compute; reflexivity|].
  split; [vm_compute; reflexivity|].
  split; vm_compute; set_solver.
Qed.

End Claims.

(** ** Further properties *)

Section Selection.
Import AIService QueueService History.

Lemma eligible_due now j : eligible now j = true ↔ due now j.
Proof.
  unfold eligible, due.
  by rewrite andb_true_iff, bool_decide_eq_true, Z.leb_le.
Qed.

Lemma before_outranks a b : before a b = true ↔ outranks a b.
Proof. unfold before, outranks. lia. Qed.

(** X1.  [findFirst] returns a row of the table that is [Pending] and due,
    and that no other due row outranks (higher priority, or equal priority
    and created earlier); it returns nothing exactly when no row is due. *)
Theorem findFirst_contract (now : Z) (q : gmap string QueueJob) :
  (∀ id job,
      findFirst now q = Some (id, job) →
      q !! id = Some job ∧ due now job ∧
      ∀ id' job', q !! id' = Some job' → due now job' → ¬ outranks job' job) ∧
  (findFirst now q = None ↔ ∀ id job, q !! id = Some job → ¬ due now job).
Proof.
  split.
  - intros id job Hf.
    destruct (findFirst_Some _ _ _ _ Hf) as (Hrow & Hst & Hdue).
    repeat split; try done.
    intros id' job' Hrow' Hdue' Hout.
    apply eligible_due in Hdue'. apply before_outranks in Hout.
    by rewrite (findFirst_best _ _ _ _ Hf id' job' Hrow' Hdue') in Hout.
  - split.
    + intros Hnone id job Hrow Hyes. apply eligible_due in Hyes.
      by rewrite (findFirst_None _ _ Hnone id job Hrow) in Hyes.
    + intros Hno. destruct (findFirst now q) as [[id job]|] eqn:Hf; [|done].
      destruct (findFirst_Some _ _ _ _ Hf) as (Hrow & Hst & Hdue).
      by destruct (Hno id job Hrow).
Qed.

(** A due row that outranks every other due row is the one selected. *)
Lemma findFirst_outranking now q id job :
  q !! id = Some job → due now job →
  (∀ id' job', id' ≠ id → q !! id' = Some job' → due now job' →
               outranks job job') →
  findFirst now q = Some (id, job).
Proof.
  intros Hrow Hdue Hbest. apply findFirst_strict_best; [done | | ].
  - by apply eligible_due.
  - intros id' job' Hne Hrow' Hel. apply before_outranks.
    apply (Hbest id' job' Hne Hrow'). by apply eligible_due.
Qed.

(** What an execution needs, without naming the row. *)
Lemma tick_executed_inv env s d s' d' id r :
  processNextJob env s d = (s', d', Executed id r) →
  ∃ job,
    findFirst (t_find env) (queueJob d) = Some (id, job) ∧
    queueJob d !! id = Some job ∧
    processing s = false ∧ (id ∉ processedJobs s) ∧
    processedJobs s' = {[id]} ∪ processedJobs s ∧
    queueJob d'
    = (<[id := outcomeWrite env job r (toProcessing (t_start env) job)]>
         (queueJob d)).
Proof.
  intros Htick.
  destruct (processing s) eqn:Hidle.
  { rewrite processNextJob_skipped in Htick by done. simplify_eq. }
  pose proof (processNextJob_cases env s d Hidle) as Hc.
  rewrite Htick in Hc.
  inversion Hc as [| | id0 job0 cache d1 r0 Hf0 Hnew Hexec]; simplify_eq.
  destruct (findFirst_Some _ _ _ _ Hf0) as (Hrow0 & _ & _).
  exists job0. rewrite afterRun_processedJobs. done.
Qed.

(** What a tick that executes nothing leaves. *)
Lemma tick_idle_inv env s d s' d' o :
  processNextJob env s d = (s', d', o) →
  (∀ id r, o ≠ Executed id r) →
  s' = s ∧ d' = d.
Proof.
  intros Htick Hno.
  destruct (processing s) eqn:Hidle.
  { rewrite processNextJob_skipped in Htick by done. by simplify_eq. }
  pose proof (processNextJob_cases env s d Hidle) as Hc.
  rewrite Htick in Hc.
  inversion Hc as [| | id0 job0 cache d1 r0 Hf0 Hnew Hexec]; simplify_eq;
    [done | done |].
  by destruct (Hno id0 r0).
Qed.

(** A tick leaves every row but the one it executes. *)
Lemma tick_other_rows env s d s' d' o id :
  processNextJob env s d = (s', d', o) →
  (∀ r, o ≠ Executed id r) →
  queueJob d' !! id = queueJob d !! id.
Proof.
  intros Htick Hother.
  destruct o as [| | id0 | msg | id0 r];
    try (destruct (tick_idle_inv _ _ _ _ _ _ Htick) as [_ ->]; done).
  destruct (tick_executed_inv _ _ _ _ _ _ _ Htick)
    as (job & _ & Hrow & _ & _ & _ & ->).
  rewrite lookup_insert_ne; [done|]. intros ->. by eapply Hother.
Qed.

(** X2.  A tick neither adds nor removes a job row; it leaves every row
    other than the one it executes as it was, and a tick that executes nothing
    leaves the service and the whole store as they were. *)
Theorem tick_touches_one_row env s d s' d' o :
  processNextJob env s d = (s', d', o) →
  dom (queueJob d') = dom (queueJob d) ∧
  (∀ id, (∀ r, o ≠ Executed id r) → queueJob d' !! id = queueJob d !! id) ∧
  ((∀ id r, o ≠ Executed id r) → s' = s ∧ d' = d).
Proof.
  intros Htick. split; [|split].
  - destruct o as [| | id0 | msg | id0 r];
      try (destruct (tick_idle_inv _ _ _ _ _ _ Htick) as [_ ->]; done).
    destruct (tick_executed_inv _ _ _ _ _ _ _ Htick)
      as (job & _ & Hrow & _ & _ & _ & ->).
    apply dom_insert_lookup_L. by eexists.
  - intros id Hother. by eapply tick_other_rows.
  - intros Hno. by eapply tick_idle_inv.
Qed.

End Selection.

Section Histories.
Import AIService QueueService History.

Lemma sameJob_refl a : sameJob a a.
Proof. by unfold sameJob. Qed.

Lemma sameJob_trans a b c : sameJob a b → sameJob b c → sameJob a c.
Proof. unfold sameJob. intros (?&?&?&?&?) (?&?&?&?&?). repeat split; congruence. Qed.

Lemma outcomeWrite_sameJob env job r now :
  sameJob job (outcomeWrite env job r (toProcessing now job)).
Proof.
  unfold outcomeWrite, failureWrite. destruct r as [[]|msg]; [done|].
  by destruct (_ <? _).
Qed.

Lemma step_sameJob dma op s d s' d' o id row :
  step dma op s d = (s', d', o) →
  queueJob d !! id = Some row →
  ∃ row', queueJob d' !! id = Some row' ∧ sameJob row row'.
Proof.
  intros Hstep Hrow.
  destruct op as [id0 tc now ty pl prio|env|jobId now]; simpl in Hstep.
  - simplify_eq. exists row. split; [by apply addJob_frame | apply sameJob_refl].
  - destruct (processNextJob env s d) as [[s1 d1] o1] eqn:Htick. simplify_eq.
    pose proof (tick_other_rows _ _ _ _ _ _ id Htick) as Hframe.
    destruct o1 as [| | id0 | msg | id0 r];
      try (exists row; split; [by rewrite Hframe | apply sameJob_refl]).
    destruct (decide (id0 = id)) as [->|Hne].
    + destruct (tick_executed_inv _ _ _ _ _ _ _ Htick)
        as (job & _ & Hrow0 & _ & _ & _ & ->). simplify_eq.
      eexists. rewrite lookup_insert_eq. split; [done|].
      apply outcomeWrite_sameJob.
    + exists row. split; [|apply sameJob_refl].
      rewrite Hframe; [done|]. intros r0 [= ->]. done.
  - destruct (retryJob jobId now s d) as [[s1 d1] r1] eqn:Hretry. simplify_eq.
    unfold retryJob in Hretry.
    destruct (queueJob d !! jobId) as [job|] eqn:Hjob;
      [|simplify_eq; exists row; split; [done | apply sameJob_refl]].
    case_bool_decide as Hst;
      [|simplify_eq; exists row; split; [done | apply sameJob_refl]].
    rewrite (update_Some _ _ _ _ Hjob) in Hretry. simplify_eq. simpl.
    destruct (decide (jobId = id)) as [->|Hne].
    + simplify_eq. eexists. rewrite lookup_insert_eq. done.
    + exists row. rewrite lookup_insert_ne by done.
      split; [done | apply sameJob_refl].
Qed.

(** X3.  Through any sequence of [addJob], ticks and [retryJob], a job is
    never dropped and keeps its type, payload, priority, creation time and
    attempt limit. *)
Theorem jobs_are_never_dropped dma ops s d s' d' outs id row :
  run dma ops s d = (s', d', outs) →
  queueJob d !! id = Some row →
  ∃ row', queueJob d' !! id = Some row' ∧ sameJob row row'.
Proof.
  revert s d row outs.
  induction ops as [|op ops IH]; intros s d row outs Hrun Hrow; simpl in Hrun.
  - simplify_eq. exists row. split; [done | apply sameJob_refl].
  - destruct (step dma op s d) as [[s1 d1] o] eqn:Hstep.
    destruct (run dma ops s1 d1) as [[s2 d2] os] eqn:Hrest. simplify_eq.
    destruct (step_sameJob _ _ _ _ _ _ _ _ _ Hstep Hrow) as (row1 & Hrow1 & H1).
    destruct (IH _ _ _ _ Hrest Hrow1) as (row2 & Hrow2 & H2).
    exists row2. split; [done | by eapply sameJob_trans].
Qed.

(** *** At most one execution *)

Lemma executions_nil id : executions id [] = 0%nat.
Proof. done. Qed.

Lemma executions_app id l k :
  executions id (l ++ k) = (executions id l + executions id k)%nat.
Proof.
  unfold executions, executedIds.
  by rewrite omap_app, filter_app, length_app.
Qed.

Lemma executions_option id o :
  executions id (option_list o)
  = match o with
    | Some (Executed id' _) => if decide (id' = id) then 1%nat else 0%nat
    | _ => 0%nat
    end.
Proof.
  destruct o as [[| | |  | id' r]|]; try done.
  unfold executions. simpl. rewrite filter_cons.
  by destruct (decide (id' = id)).
Qed.

Lemma step_seen dma op s d s' d' o id :
  step dma op s d = (s', d', o) →
  id ∈ processedJobs s →
  (∀ now, op ≠ Retry id now) →
  id ∈ processedJobs s' ∧ ∀ r, o ≠ Some (Executed id r).
Proof.
  intros Hstep Hseen Hop.
  destruct op as [id0 tc now ty pl prio|env|jobId now]; simpl in Hstep.
  - by simplify_eq.
  - destruct (processNextJob env s d) as [[s1 d1] o1] eqn:Htick. simplify_eq.
    destruct o1 as [| | id0 | msg | id0 r];
      try (destruct (tick_idle_inv _ _ _ _ _ _ Htick) as [-> _]; done).
    destruct (tick_executed_inv _ _ _ _ _ _ _ Htick)
      as (job & _ & _ & _ & Hnew & -> & _).
    split; [set_solver|]. intros r0 [= -> _]. done.
  - destruct (retryJob jobId now s d) as [[s1 d1] r1] eqn:Hretry. simplify_eq.
    split; [|done]. unfold retryJob in Hretry.
    repeat case_match; simplify_eq; try done.
    simpl. apply elem_of_difference. split; [done|].
    intros ->%elem_of_singleton. by eapply Hop.
Qed.

Lemma run_seen dma ops s d s' d' outs id :
  run dma ops s d = (s', d', outs) →
  id ∈ processedJobs s →
  Forall (λ op, ∀ now, op ≠ Retry id now) ops →
  executions id outs = 0%nat.
Proof.
  revert s d outs.
  induction ops as [|op ops IH]; intros s d outs Hrun Hseen Hops;
    simpl in Hrun.
  - by simplify_eq.
  - destruct (step dma op s d) as [[s1 d1] o] eqn:Hstep.
    destruct (run dma ops s1 d1) as [[s2 d2] os] eqn:Hrest. simplify_eq.
    apply Forall_cons in Hops as [Hop Hops].
    destruct (step_seen _ _ _ _ _ _ _ _ Hstep Hseen Hop) as [Hseen1 Hno].
    rewrite executions_app, (IH _ _ _ Hrest Hseen1 Hops), executions_option.
    destruct o as [[| | | | id' r]|]; try done.
    destruct (decide (id' = id)) as [->|]; [|done]. by destruct (Hno r).
Qed.

(** X4.  In a history without a [retryJob] on the job, one service executes
    the job at most once, and never when its id is already in
    [processedJobs]. *)
Theorem executed_at_most_once dma ops s d s' d' outs id :
  run dma ops s d = (s', d', outs) →
  Forall (λ op, ∀ now, op ≠ Retry id now) ops →
  (executions id outs ≤ 1)%nat ∧
  (id ∈ processedJobs s → executions id outs = 0%nat).
Proof.
  intros Hrun Hops. split; [|intros Hseen; by eapply run_seen].
  revert s d outs Hrun.
  induction ops as [|op ops IH]; intros s d outs Hrun; simpl in Hrun.
  - simplify_eq. rewrite executions_nil. lia.
  - destruct (step dma op s d) as [[s1 d1] o] eqn:Hstep.
    destruct (run dma ops s1 d1) as [[s2 d2] os] eqn:Hrest. simplify_eq.
    apply Forall_cons in Hops as [Hop Hops].
    rewrite executions_app, executions_option.
    destruct o as [[| | | | id' r]|]; try by apply (IH Hops _ _ _ Hrest).
    destruct (decide (id' = id)) as [->|]; [|by apply (IH Hops _ _ _ Hrest)].
    destruct op as [id0 tc now ty pl prio|env|jobId now]; simpl in Hstep;
      [by simplify_eq | | by destruct (retryJob jobId now s d) as [[??]?]].
    destruct (processNextJob env s d) as [[s3 d3] o3] eqn:Htick. simplify_eq.
    destruct (tick_executed_inv _ _ _ _ _ _ _ Htick)
      as (job & _ & _ & _ & _ & Hseen & _).
    rewrite (run_seen _ _ _ _ _ _ _ id Hrest); [lia | | done].
    rewrite Hseen. by apply elem_of_union_l, elem_of_singleton.
Qed.

End Histories.

Section Bookkeeping.
Import AIService QueueService History.

Lemma afterRun_failedJobsCache env id r cache s :
  length (failedJobsCache (afterRun env id r cache s))
  = (length (failedJobsCache s) + (if threw (Executed id r) then 1 else 0))%nat.
Proof.
  unfold afterRun, noteFailure, recordFailure.
  destruct r as [[]|msg]; simpl; [lia|]. rewrite length_app. simpl. lia.
Qed.

Lemma failures_app l k : failures (l ++ k) = (failures l + failures k)%nat.
Proof. unfold failures. by rewrite filter_app, length_app. Qed.

Lemma failures_option o :
  failures (option_list o)
  = match o with Some x => if threw x then 1%nat else 0%nat | None => 0%nat end.
Proof.
  destruct o as [x|]; [|done]. unfold failures. simpl.
  rewrite filter_cons. by destruct (threw x); simpl.
Qed.

Lemma step_failedJobsCache dma op s d s' d' o :
  step dma op s d = (s', d', o) →
  length (failedJobsCache s')
  = (length (failedJobsCache s) + failures (option_list o))%nat.
Proof.
  intros Hstep. rewrite failures_option.
  destruct op as [id0 tc now ty pl prio|env|jobId now]; simpl in Hstep.
  - simplify_eq. lia.
  - destruct (processNextJob env s d) as [[s1 d1] o1] eqn:Htick. simplify_eq.
    destruct (processing s) eqn:Hidle.
    { rewrite processNextJob_skipped in Htick by done. simplify_eq. simpl. lia. }
    pose proof (processNextJob_cases env s d Hidle) as Hc.
    rewrite Htick in Hc.
    inversion Hc as [| | id0 job0 cache d2 r0 Hf0 Hnew Hexec]; simplify_eq;
      [simpl; lia | simpl; lia |].
    apply afterRun_failedJobsCache.
  - destruct (retryJob jobId now s d) as [[s1 d1] r1] eqn:Hretry. simplify_eq.
    unfold retryJob in Hretry. repeat case_match; simplify_eq; simpl; lia.
Qed.

(** X5.  [failedJobsCache] is only ever appended to: over any history its
    length grows by exactly the number of executions that threw, and the old
    content stays as a prefix. *)
Theorem failedJobsCache_only_grows dma ops s d s' d' outs :
  run dma ops s d = (s', d', outs) →
  length (failedJobsCache s')
  = (length (failedJobsCache s) + failures outs)%nat ∧
  failedJobsCache s `prefix_of` failedJobsCache s'.
Proof.
  revert s d outs.
  induction ops as [|op ops IH]; intros s d outs Hrun; simpl in Hrun.
  - simplify_eq. split; [unfold failures; simpl; lia | done].
  - destruct (step dma op s d) as [[s1 d1] o] eqn:Hstep.
    destruct (run dma ops s1 d1) as [[s2 d2] os] eqn:Hrest. simplify_eq.
    destruct (IH _ _ _ Hrest) as [Hlen Hpre].
    split.
    + rewrite Hlen, (step_failedJobsCache _ _ _ _ _ _ _ Hstep), failures_app.
      lia.
    + etrans; [|exact Hpre]. clear -Hstep.
      destruct op as [id0 tc now ty pl prio|env|jobId now]; simpl in Hstep.
      * by simplify_eq.
      * destruct (processNextJob env s d) as [[s3 d3] o3] eqn:Htick.
        simplify_eq.
        destruct (processing s) eqn:Hidle.
        { rewrite processNextJob_skipped in Htick by done. by simplify_eq. }
        pose proof (processNextJob_cases env s d Hidle) as Hc.
        rewrite Htick in Hc.
        inversion Hc as [| | id0 job0 cache d2 r0 Hf0 Hnew Hexec]; simplify_eq;
          [done | done |].
        unfold afterRun, noteFailure, recordFailure.
        destruct r0 as [[]|msg]; simpl; [done | by apply prefix_app_r].
      * destruct (retryJob jobId now s d) as [[s3 d3] r3] eqn:Hretry.
        simplify_eq.
        unfold retryJob in Hretry. repeat case_match; by simplify_eq.
Qed.

(** A row that is neither [Pending] nor [Failed] is out of reach. *)
Lemma step_keeps_closed dma op s d s' d' o id row :
  step dma op s d = (s', d', o) →
  queueJob d !! id = Some row →
  status row ≠ Pending → status row ≠ Failed →
  queueJob d' !! id = Some row ∧ ∀ r, o ≠ Some (Executed id r).
Proof.
  intros Hstep Hrow Hnp Hnf. split.
  - destruct op as [id0 tc now ty pl prio|env|jobId now];
      try (eapply step_keeps_settled; [exact Hstep | done | done | done]).
    simpl in Hstep.
    destruct (retryJob jobId now s d) as [[s1 d1] r1] eqn:Hretry. simplify_eq.
    eapply retryJob_frame; [done | done | by right].
  - intros r ->.
    destruct op as [id0 tc now ty pl prio|env|jobId now]; simpl in Hstep;
      [by simplify_eq | | by destruct (retryJob jobId now s d) as [[??]?]].
    destruct (processNextJob env s d) as [[s1 d1] o1] eqn:Htick. simplify_eq.
    destruct (tick_executed_inv _ _ _ _ _ _ _ Htick)
      as (job & Hf & Hrow0 & _). simplify_eq.
    by destruct (findFirst_Some _ _ _ _ Hf) as (_ & ? & _).
Qed.

(** X6.  A row that is [Completed] or [Processing] is out of reach of the
    service: no sequence of [addJob], ticks and [retryJob] changes it or
    executes it (a row left [Processing] stays so). *)
Theorem closed_rows_are_out_of_reach dma ops s d s' d' outs id row :
  run dma ops s d = (s', d', outs) →
  queueJob d !! id = Some row →
  status row = Completed ∨ status row = Processing →
  queueJob d' !! id = Some row ∧ executions id outs = 0%nat.
Proof.
  intros Hrun Hrow Hst.
  assert (status row ≠ Pending ∧ status row ≠ Failed) as [Hnp Hnf]
    by (destruct Hst as [-> | ->]; done).
  clear Hst. revert s d outs Hrun Hrow.
  induction ops as [|op ops IH]; intros s d outs Hrun Hrow; simpl in Hrun.
  - by simplify_eq.
  - destruct (step dma op s d) as [[s1 d1] o] eqn:Hstep.
    destruct (run dma ops s1 d1) as [[s2 d2] os] eqn:Hrest. simplify_eq.
    destruct (step_keeps_closed _ _ _ _ _ _ _ _ _ Hstep Hrow Hnp Hnf)
      as [Hrow1 Hno].
    destruct (IH _ _ _ Hrest Hrow1) as [Hrow2 Hzero].
    split; [done|].
    rewrite executions_app, Hzero, executions_option.
    destruct o as [[| | | | id' r]|]; try done.
    destruct (decide (id' = id)) as [->|]; [|done]. by destruct (Hno r).
Qed.

End Bookkeeping.

Section Compositions.
Import AIService QueueService History.

Lemma due_mono now now' j : due now j → now ≤ now' → due now' j.
Proof. unfold due. intros [? ?] ?. split; [done | lia]. Qed.

(** X7.  [retryJob] makes a failed job runnable again for the same service:
    it succeeds, and the next tick at or after the retry time executes the
    job when the job outranks the other due rows, starting again from
    [attempts = 0]. *)
Theorem retried_job_runs_again now env s d id job :
  processing s = false →
  queueJob d !! id = Some job →
  status job = Failed →
  now ≤ t_find env →
  (∀ id' job', id' ≠ id → queueJob d !! id' = Some job' →
               due (t_find env) job' → outranks job job') →
  ∃ s1 d1 s2 d2 r,
    retryJob id now s d = (s1, d1, Ok ()) ∧
    processNextJob env s1 d1 = (s2, d2, Executed id r) ∧
    ∃ row, queueJob d2 !! id = Some row ∧
           attempts row = match r with Ok _ => 0 | Throw _ => 1 end.
Proof.
  intros Hidle Hrow Hst Hnow Hbest.
  unfold retryJob. rewrite Hrow, bool_decide_eq_true_2 by done.
  rewrite (update_Some _ _ _ _ Hrow).
  set (s1 := with_processedJobs _ s). set (d1 := with_queueJob _ d).
  assert (findFirst (t_find env) (queueJob d1) = Some (id, toReset now job))
    as Hf.
  { apply findFirst_outranking.
    - subst d1. simpl. apply lookup_insert_eq.
    - split; [done | simpl; lia].
    - intros id' job' Hne Hrow' Hdue'. subst d1. simpl in Hrow'.
      rewrite lookup_insert_ne in Hrow' by done.
      apply (Hbest id' job' Hne Hrow' Hdue'). }
  destruct (tick_run_inv env s1 d1 id (toReset now job))
    as (cache & d2 & r & Hexec & Htick); [done | done | |].
  { subst s1. simpl. intros [_ Hne]%elem_of_difference.
    apply Hne. by apply elem_of_singleton. }
  eexists s1, d1, _, _, r. split; [done|]. split; [exact Htick|].
  eexists. simpl. rewrite lookup_insert_eq. split; [done|].
  unfold outcomeWrite, failureWrite. destruct r as [[]|msg]; [done|].
  by destruct (_ <? _).
Qed.

(** X8.  A job added under a new id is [Pending] with [attempts = 0], the
    given priority (0 when none is given) and the default attempt limit, and
    the next tick at or after its creation executes it when it outranks the
    other due rows. *)
Theorem enqueued_job_runs dma id t_created now ty pl prio env s d :
  processing s = false →
  queueJob d !! id = None →
  id ∉ processedJobs s →
  now ≤ t_find env →
  (∀ id' job', queueJob d !! id' = Some job' → due (t_find env) job' →
               priority job' < default 0 prio ∨
               (default 0 prio = priority job' ∧ t_created < createdAt job')) →
  ∃ newJob d1 s2 d2 r,
    addJob dma id t_created now ty pl prio d = (d1, Ok newJob) ∧
    queueJob d1 !! id = Some newJob ∧
    status newJob = Pending ∧ attempts newJob = 0 ∧
    priority newJob = default 0 prio ∧ maxAttempts newJob = dma ∧
    processNextJob env s d1 = (s2, d2, Executed id r).
Proof.
  intros Hidle Hfresh Hnew Hnow Hbest.
  unfold addJob, Prisma.create. rewrite Hfresh.
  set (newJob := {| type := ty |}). set (d1 := with_queueJob _ d).
  assert (findFirst (t_find env) (queueJob d1) = Some (id, newJob)) as Hf.
  { apply findFirst_outranking.
    - subst d1. simpl. apply lookup_insert_eq.
    - split; [done | simpl; lia].
    - intros id' job' Hne Hrow' Hdue'. subst d1. simpl in Hrow'.
      rewrite lookup_insert_ne in Hrow' by done.
      specialize (Hbest id' job' Hrow' Hdue').
      unfold outranks. simpl. lia. }
  destruct (tick_run_inv env s d1 id newJob Hidle Hf Hnew)
    as (cache & d2 & r & Hexec & Htick).
  eexists newJob, d1, _, _, r. split; [done|].
  split; [subst d1; simpl; apply lookup_insert_eq|]. by repeat split.
Qed.

(** X9.  A newly constructed service executes whatever [findFirst] returns:
    what other instances have recorded in their [processedJobs] does not
    hold it back. *)
Theorem fresh_instance_executes env d id job :
  findFirst (t_find env) (queueJob d) = Some (id, job) →
  ∃ s' d' r,
    processNextJob env newService d = (s', d', Executed id r) ∧
    processedJobs s' = {[id]}.
Proof.
  intros Hf.
  destruct (tick_run_inv env newService d id job)
    as (cache & d1 & r & Hexec & Htick); [done | done | apply not_elem_of_empty |].
  eexists _, _, r. split; [exact Htick|].
  rewrite afterRun_processedJobs. simpl. by rewrite union_empty_r_L.
Qed.

End Compositions.

Section Handlers.
Import AIService QueueService History.

(** X10.  No handler writes to the job table.  A job that is not a
    generation job leaves the cache and the generation table alone and, when
    it throws, the whole store; a generation job leaves the component table
    alone. *)
Theorem executeJob_frame env job cache d cache' d' r :
  executeJob env job cache d = (cache', d', r) →
  queueJob d' = queueJob d ∧
  (type job ≠ "ai_generation" →
   cache' = cache ∧ generation d' = generation d ∧
   ∀ msg, r = Throw msg → d' = d) ∧
  (type job = "ai_generation" → component d' = component d).
Proof.
  intros Hexec.
  pose proof (executeJob_queueJob env job cache d) as Hq.
  rewrite Hexec in Hq. simpl in Hq. split; [done|]. split.
  - intros Hty. unfold executeJob in Hexec.
    destruct (String.eqb_spec (type job) "ai_generation") as [|_]; [done|].
    unfold handleAIImprovement, handleAIValidation in Hexec.
    repeat case_match; simplify_eq; done.
  - intros Hty. unfold executeJob in Hexec. rewrite Hty in Hexec.
    simpl in Hexec. unfold handleAIGeneration in Hexec.
    repeat case_match; simplify_eq; done.
Qed.

Lemma tick_executeJob env s d s' d' id r job :
  processNextJob env s d = (s', d', Executed id r) →
  queueJob d !! id = Some job →
  ∃ d1,
    executeJob env job (requestCache s)
      (with_queueJob (<[id := toProcessing (t_start env) job]> (queueJob d)) d)
    = (requestCache s', d1, r) ∧
    generation d' = generation d1 ∧ component d' = component d1 ∧
    queueJob d' !! id
    = Some (outcomeWrite env job r (toProcessing (t_start env) job)).
Proof.
  intros Htick Hrow.
  destruct (tick_executed _ _ _ _ _ _ _ _ Htick Hrow)
    as (Hidle & Hnew & Hf & Hq & _ & _).
  destruct (tick_run_inv env s d id job Hidle Hf Hnew)
    as (cache & d1 & r1 & Hexec & Htick').
  rewrite Htick in Htick'. simplify_eq.
  exists d1. split.
  - rewrite Hexec. f_equal. f_equal.
    unfold afterRun, noteFailure, recordFailure. by destruct r1.
  - simpl. by rewrite lookup_insert_eq.
Qed.

(** X11.  An executed improvement job touches neither the generation table
    nor the cache.  When it succeeds, the component named by the payload
    existed and now holds exactly the improved code; when it throws, the
    component table is as before. *)
Theorem improvement_job_outcome env s d s' d' id r job :
  processNextJob env s d = (s', d', Executed id r) →
  queueJob d !! id = Some job →
  type job = "ai_improvement" →
  generation d' = generation d ∧
  requestCache s' = requestCache s ∧
  match r with
  | Ok _ =>
      ∃ c text,
        componentId (payload job) = Some c ∧
        improveCode (reply env) = Ok text ∧
        is_Some (component d !! c) ∧
        component d'
        = <[c := {| Component.componentData := Component.Improved text;
                    Component.updatedAt := t_record env |}]> (component d)
  | Throw msg => component d' = component d
  end.
Proof.
  intros Htick Hrow Hty.
  destruct (tick_executeJob _ _ _ _ _ _ _ _ Htick Hrow)
    as (d1 & Hexec & Hg & Hc & _).
  rewrite Hg, Hc. clear Hg Hc Htick.
  unfold executeJob in Hexec. rewrite Hty in Hexec. simpl in Hexec.
  unfold handleAIImprovement, Prisma.update in Hexec.
  destruct (improveCode (reply env)) as [text|msg]; [|by simplify_eq].
  destruct (componentId (payload job)) as [c|]; [|by simplify_eq].
  simpl in Hexec.
  destruct (component d !! c) as [row|] eqn:Hc; simplify_eq; [|done].
  repeat split; try done. by exists c, text.
Qed.

(** X12.  An executed validation job touches neither the generation table
    nor the cache.  When it succeeds, the component named by the payload now
    holds the payload's code with the verdict of [validateComponent]; when it
    throws, the component table is as before. *)
Theorem validation_job_outcome env s d s' d' id r job :
  processNextJob env s d = (s', d', Executed id r) →
  queueJob d !! id = Some job →
  type job = "ai_validation" →
  generation d' = generation d ∧
  requestCache s' = requestCache s ∧
  match r with
  | Ok _ =>
      ∃ c row valid issues,
        componentId (payload job) = Some c ∧
        validateComponent (reply env) = Ok (valid, issues) ∧
        component d !! c = Some row ∧
        component d'
        = <[c := {| Component.componentData :=
                      Component.Validated (code (payload job)) valid issues
                        (t_record env);
                    Component.updatedAt := Component.updatedAt row |}]>
            (component d)
  | Throw msg => component d' = component d
  end.
Proof.
  intros Htick Hrow Hty.
  destruct (tick_executeJob _ _ _ _ _ _ _ _ Htick Hrow)
    as (d1 & Hexec & Hg & Hc & _).
  rewrite Hg, Hc. clear Hg Hc Htick.
  unfold executeJob in Hexec. rewrite Hty in Hexec. simpl in Hexec.
  unfold handleAIValidation, Prisma.update in Hexec.
  destruct (validateComponent (reply env)) as [[valid issues]|msg];
    [|by simplify_eq].
  destruct (componentId (payload job)) as [c|]; [|by simplify_eq].
  simpl in Hexec.
  destruct (component d !! c) as [row|] eqn:Hc; simplify_eq; [|done].
  repeat split; try done. by exists c, row, valid, issues.
Qed.

(** X13.  A generation job whose prompt is in the service's cache and younger
    than [TTL] completes whatever the provider would answer: the job is
    [Completed], the generation row holds the cached text with
    [tokensUsed = 0], and the cache is unchanged. *)
Theorem cached_generation_needs_no_provider env s d id job gid p g cached :
  processing s = false →
  findFirst (t_find env) (queueJob d) = Some (id, job) →
  id ∉ processedJobs s →
  type job = "ai_generation" →
  generationId (payload job) = Some gid →
  prompt (payload job) = Some p →
  generation d !! gid = Some g →
  requestCache s !! p = Some cached →
  t_check env - timestamp cached < TTL →
  ∃ s' d' row,
    processNextJob env s d = (s', d', Executed id (Ok ())) ∧
    requestCache s' = requestCache s ∧
    queueJob d' !! id = Some row ∧ status row = Completed ∧
    generation d' !! gid
    = Some {| Generation.status := Completed;
              Generation.result := Some (result_text cached);
              Generation.tokensUsed := Some 0;
              Generation.completedAt := Some (t_record env) |}.
Proof.
  intros Hidle Hf Hnew Hty Hgid Hp Hg Hc Hage.
  destruct (tick_run_inv env s d id job Hidle Hf Hnew)
    as (cache & d1 & r & Hexec & Htick).
  unfold executeJob in Hexec. rewrite Hty in Hexec. simpl in Hexec.
  unfold handleAIGeneration, generateComponent in Hexec.
  rewrite Hp, Hc, bool_decide_eq_true_2, Hgid in Hexec by done.
  unfold Prisma.update in Hexec. simpl in Hexec. rewrite Hg in Hexec.
  simplify_eq.
  eexists _, _, _. split; [exact Htick|]. simpl.
  rewrite !lookup_insert_eq. done.
Qed.

End Handlers.

Section Client.
Import AIService.

(** X14.  Whenever [generateComponent] throws, the message is "Failed to
    generate component" and the cache is unchanged; it throws only for an
    undefined prompt, a rejected request or a reply whose first block is not
    text. *)
Theorem generateComponent_failure prompt t0 t1 reply cache cache' msg :
  generateComponent prompt t0 t1 reply cache = (cache', Throw msg) →
  msg = failed_to_generate ∧ cache' = cache ∧
  (prompt = None ∨
   (∃ why, reply = Rejects why) ∨
   (∃ r, reply = Replies r ∧ ∀ text rest, content r ≠ TextBlock text :: rest)).
Proof.
  unfold generateComponent, generateFresh. intros H.
  destruct prompt as [p|]; [|simplify_eq; by eauto].
  destruct reply as [r|why].
  - destruct (content r) as [|[text|] rest] eqn:Hc;
      repeat case_match; simplify_eq;
      (split; [done|]; split; [done|]; right; right; exists r;
       split; [done|]; by rewrite Hc).
  - repeat case_match; simplify_eq; eauto 6.
Qed.

(** X15.  After a generation that went to the provider at time [t1], the
    cache holds the new entry, holds no entry older than [TTL] at [t1], keeps
    every other entry that is not older, and has grown by at most one. *)
Theorem fresh_generation_sweeps p t0 t1 r text rest cache :
  (cache !! p = None ∨
   ∃ old, cache !! p = Some old ∧ TTL ≤ t0 - timestamp old) →
  content r = TextBlock text :: rest →
  ∃ cache',
    generateComponent (Some p) t0 t1 (Replies r) cache
    = (cache', Ok (text, input_tokens r + output_tokens r)) ∧
    cache' !! p = Some {| result_text := text; timestamp := t1 |} ∧
    (∀ k e, cache' !! k = Some e → t1 - timestamp e ≤ TTL) ∧
    (∀ k e, k ≠ p →
            (cache' !! k = Some e ↔
             cache !! k = Some e ∧ t1 - timestamp e ≤ TTL)) ∧
    (getCacheSize cache' ≤ getCacheSize cache + 1)%nat.
Proof.
  intros Hmiss Hc.
  exists (sweep t1 (<[p := {| result_text := text; timestamp := t1 |}]> cache)).
  split; [|split; [|split; [|split]]].
  - unfold generateComponent.
    destruct Hmiss as [-> | (old & -> & Hold)].
    + by apply generateFresh_text with rest.
    + rewrite bool_decide_eq_false_2 by lia.
      by apply generateFresh_text with rest.
  - apply sweep_lookup_fresh.
  - intros k e [_ Hk]%map_lookup_filter_Some. simpl in Hk. lia.
  - intros k e Hne. unfold sweep. rewrite map_lookup_filter_Some.
    rewrite lookup_insert_ne by done. simpl. split; intros [? ?]; split; (done || lia).
  - unfold getCacheSize, sweep.
    etrans; [apply map_size_filter|]. rewrite map_size_insert.
    destruct (cache !! p); simpl; lia.
Qed.

(** X16.  After [clearCache] the cache is empty and every
    [generateComponent] goes to the provider; a text reply then leaves
    exactly one entry. *)
Theorem clearCache_forgets p t0 t1 reply cache :
  getCacheSize (clearCache cache) = 0%nat ∧
  generateComponent (Some p) t0 t1 reply (clearCache cache)
  = generateFresh p t1 reply ∅ ∧
  ∀ r text rest,
    reply = Replies r → content r = TextBlock text :: rest →
    generateComponent (Some p) t0 t1 reply (clearCache cache)
    = ({[ p := {| result_text := text; timestamp := t1 |} ]},
       Ok (text, input_tokens r + output_tokens r)).
Proof.
  split; [done|]. split; [done|].
  intros r text rest -> Hc. unfold clearCache, generateComponent.
  rewrite lookup_empty, (generateFresh_text _ _ _ _ rest) by done.
  f_equal. unfold sweep. rewrite insert_empty.
  apply map_filter_singleton_True. simpl. unfold TTL. lia.
Qed.

End Client.

Section Stats.
Import AIService QueueService History.

Lemma count_insert_fresh st k v (q : gmap string QueueJob) :
  q !! k = None →
  Inspection.count st (<[k := v]> q)
  = (Inspection.count st q + (if decide (status v = st) then 1 else 0))%nat.
Proof.
  intros Hk. unfold Inspection.count.
  destruct (decide (status v = st)) as [Hst|Hst].
  - rewrite map_filter_insert_True by done.
    rewrite map_size_insert_None; [lia|].
    apply map_lookup_filter_None. by left.
  - rewrite map_filter_insert_not' by (done || congruence). lia.
Qed.

Lemma count_insert_over st k v v' (q : gmap string QueueJob) :
  q !! k = Some v →
  (Inspection.count st (<[k := v']> q)
   + (if decide (status v = st) then 1 else 0))%nat
  = (Inspection.count st q + (if decide (status v' = st) then 1 else 0))%nat.
Proof.
  intros Hk.
  rewrite <- (insert_delete_eq q k v').
  rewrite <- (insert_id q k v Hk) at 2.
  rewrite <- (insert_delete_eq q k v).
  rewrite !count_insert_fresh by apply lookup_delete_eq. lia.
Qed.

Lemma count_total (q : gmap string QueueJob) :
  (Inspection.count Pending q + Inspection.count Processing q
   + Inspection.count Completed q + Inspection.count Failed q)%nat = size q.
Proof.
  induction q as [|k v q Hk _ IH] using map_first_key_ind.
  - unfold Inspection.count. by rewrite !map_filter_empty, map_size_empty.
  - rewrite !count_insert_fresh, map_size_insert_None by done.
    destruct (status v); simpl; lia.
Qed.

(** X18.  The four status counts of [getQueueStats] add up to the number of
    rows of the job table (whose [status] holds one of the four values the
    code writes). *)
Theorem stats_cover_the_table s d :
  (Inspection.pending (Inspection.getQueueStats s d)
   + Inspection.processing (Inspection.getQueueStats s d)
   + Inspection.completed (Inspection.getQueueStats s d)
   + Inspection.failed (Inspection.getQueueStats s d))%nat
  = size (queueJob d).
Proof. apply count_total. Qed.

(** X19.  An execution leaves the [processing] count as it was and adds one
    to [processedCount].  A success moves one job from [pending] to
    [completed]; a failure adds one to [failedCacheSize] and either leaves
    [pending] and [failed] (retry) or moves one job from [pending] to
    [failed] (last attempt). *)
Theorem stats_after_execution env s d s' d' id r job :
  processNextJob env s d = (s', d', Executed id r) →
  queueJob d !! id = Some job →
  let st := Inspection.getQueueStats s d in
  let st' := Inspection.getQueueStats s' d' in
  Inspection.processing st' = Inspection.processing st ∧
  Inspection.processedCount st' = S (Inspection.processedCount st) ∧
  match r with
  | Ok _ =>
      Inspection.pending st = S (Inspection.pending st') ∧
      Inspection.completed st' = S (Inspection.completed st) ∧
      Inspection.failed st' = Inspection.failed st ∧
      Inspection.failedCacheSize st' = Inspection.failedCacheSize st
  | Throw _ =>
      Inspection.completed st' = Inspection.completed st ∧
      Inspection.failedCacheSize st' = S (Inspection.failedCacheSize st) ∧
      if attempts job + 1 <? maxAttempts job
      then Inspection.pending st' = Inspection.pending st ∧
           Inspection.failed st' = Inspection.failed st
      else Inspection.pending st = S (Inspection.pending st') ∧
           Inspection.failed st' = S (Inspection.failed st)
  end.
Proof.
  intros Htick Hrow st st'.
  destruct (tick_executed _ _ _ _ _ _ _ _ Htick Hrow)
    as (Hidle & Hnew & Hf & Hq & Hseen & _).
  destruct (findFirst_Some _ _ _ _ Hf) as (_ & Hst & _).
  destruct (tick_run_inv env s d id job Hidle Hf Hnew)
    as (cache & d1 & r1 & Hexec & Htick').
  rewrite Htick in Htick'. simplify_eq.
  pose proof (afterRun_failedJobsCache env id r1 cache s) as Hlen.
  subst st st'. unfold Inspection.getQueueStats.
  cbn [Inspection.pending Inspection.processing Inspection.completed
       Inspection.failed Inspection.processedCount
       Inspection.failedCacheSize].
  rewrite Hseen, Hq, Hlen.
  set (row' := outcomeWrite env job r1 (toProcessing (t_start env) job)).
  pose proof (count_insert_over Pending id job row' _ Hrow) as HP.
  pose proof (count_insert_over Processing id job row' _ Hrow) as HR.
  pose proof (count_insert_over Completed id job row' _ Hrow) as HC.
  pose proof (count_insert_over Failed id job row' _ Hrow) as HF.
  rewrite Hst in HP, HR, HC, HF.
  assert (size ({[id]} ∪ processedJobs s) = S (size (processedJobs s))) as ->.
  { rewrite size_union by (by apply disjoint_singleton_l).
    by rewrite size_singleton. }
  subst row'. unfold outcomeWrite, failureWrite in *.
  destruct r1 as [[]|msg]; simpl in *.
  - repeat split; lia.
  - destruct (attempts job + 1 <? maxAttempts job); simpl in *;
      repeat split; lia.
Qed.

(** X20.  [retryJob] on a failed job moves one job from [failed] to
    [pending] in the counts of [getQueueStats], leaves the other status counts
    and [failedCacheSize], and lowers [processedCount] by one exactly when
    the id was in [processedJobs]. *)
Theorem stats_after_retry jobId now s d job :
  queueJob d !! jobId = Some job →
  status job = Failed →
  ∃ s' d',
    retryJob jobId now s d = (s', d', Ok ()) ∧
    let st := Inspection.getQueueStats s d in
    let st' := Inspection.getQueueStats s' d' in
    Inspection.failed st = S (Inspection.failed st') ∧
    Inspection.pending st' = S (Inspection.pending st) ∧
    Inspection.processing st' = Inspection.processing st ∧
    Inspection.completed st' = Inspection.completed st ∧
    Inspection.failedCacheSize st' = Inspection.failedCacheSize st ∧
    Inspection.processedCount st
    = (Inspection.processedCount st'
       + (if decide (jobId ∈ processedJobs s) then 1 else 0))%nat.
Proof.
  intros Hrow Hst. unfold retryJob.
  rewrite Hrow, bool_decide_eq_true_2, (update_Some _ _ _ _ Hrow) by done.
  eexists _, _. split; [done|]. cbv zeta.
  unfold Inspection.getQueueStats.
  cbn [Inspection.pending Inspection.processing Inspection.completed
       Inspection.failed Inspection.processedCount
       Inspection.failedCacheSize].
  simpl.
  pose proof (count_insert_over Pending jobId job (toReset now job) _ Hrow) as HP.
  pose proof (count_insert_over Processing jobId job (toReset now job) _ Hrow) as HR.
  pose proof (count_insert_over Completed jobId job (toReset now job) _ Hrow) as HC.
  pose proof (count_insert_over Failed jobId job (toReset now job) _ Hrow) as HF.
  rewrite Hst in HP, HR, HC, HF. simpl in *.
  repeat split; try lia.
  destruct (decide (jobId ∈ processedJobs s)) as [Hin|Hout].
  - rewrite size_difference by (by apply singleton_subseteq_l).
    rewrite size_singleton.
    assert (size (processedJobs s) ≠ 0%nat); [|lia].
    intros Hz%size_empty_inv. rewrite (Hz jobId) in Hin.
    by apply elem_of_empty in Hin.
  - rewrite difference_disjoint_L by (by apply disjoint_singleton_r). lia.
Qed.

End Stats.

Section FailedJobs.
Import AIService QueueService History.

#[local] Instance recentFirst_total : Total Inspection.recentFirst.
Proof.
  intros a b. unfold Inspection.recentFirst.
  destruct (completedAt a.2), (completedAt b.2); (lia || tauto).
Qed.

#[local] Instance recentFirst_trans : Transitive Inspection.recentFirst.
Proof.
  intros a b c. unfold Inspection.recentFirst.
  destruct (completedAt a.2), (completedAt b.2), (completedAt c.2);
    (lia || tauto).
Qed.

Lemma getFailedJobs_elem d id job :
  (id, job) ∈ Inspection.getFailedJobs d ↔
  queueJob d !! id = Some job ∧ status job = Failed.
Proof.
  unfold Inspection.getFailedJobs.
  rewrite merge_sort_Permutation, list_elem_of_filter, elem_of_map_to_list.
  simpl. tauto.
Qed.

(** X21.  [getFailedJobs] lists exactly the [Failed] rows, each id once,
    most recent [completedAt] first (rows without [completedAt] leading, as
    PostgreSQL orders them); its length is the [failed] count of
    [getQueueStats]. *)
Theorem getFailedJobs_contract d :
  (∀ id job,
      (id, job) ∈ Inspection.getFailedJobs d ↔
      queueJob d !! id = Some job ∧ status job = Failed) ∧
  NoDup (Inspection.getFailedJobs d).*1 ∧
  StronglySorted Inspection.recentFirst (Inspection.getFailedJobs d) ∧
  length (Inspection.getFailedJobs d)
  = Inspection.failed (Inspection.getQueueStats newService d).
Proof.
  unfold Inspection.getFailedJobs.
  pose proof (merge_sort_Permutation Inspection.recentFirst
                (filter (λ kv, status kv.2 = Failed)
                   (map_to_list (queueJob d)))) as Hperm.
  split; [|split; [|split]].
  - intros id job. apply getFailedJobs_elem.
  - rewrite Hperm.
    eapply sublist_NoDup; [apply (NoDup_fst_map_to_list (queueJob d))|].
    apply fmap_sublist, sublist_filter.
  - apply StronglySorted_merge_sort; apply _.
  - rewrite Hperm. simpl. unfold Inspection.count.
    rewrite map_filter_alt, <- length_map_to_list.
    rewrite map_to_list_to_map; [done|].
    eapply sublist_NoDup; [apply (NoDup_fst_map_to_list (queueJob d))|].
    apply fmap_sublist, sublist_filter.
Qed.

(** X22.  After [retryJob] on a failed job, the job is gone from
    [getFailedJobs] and the other entries are the same. *)
Theorem retry_leaves_failed_list jobId now s d job :
  queueJob d !! jobId = Some job →
  status job = Failed →
  ∃ s' d',
    retryJob jobId now s d = (s', d', Ok ()) ∧
    (jobId ∉ (Inspection.getFailedJobs d').*1) ∧
    ∀ id row, id ≠ jobId →
              ((id, row) ∈ Inspection.getFailedJobs d' ↔
               (id, row) ∈ Inspection.getFailedJobs d).
Proof.
  intros Hrow Hst. unfold retryJob.
  rewrite Hrow, bool_decide_eq_true_2, (update_Some _ _ _ _ Hrow) by done.
  eexists _, _. split; [done|]. split.
  - intros ([id row] & Hid & Hin)%list_elem_of_fmap. simpl in Hid. subst id.
    apply getFailedJobs_elem in Hin as [Hrow' Hst'].
    simpl in Hrow'. rewrite lookup_insert_eq in Hrow'. by simplify_eq.
  - intros id row Hne.
    rewrite !getFailedJobs_elem. simpl.
    by rewrite lookup_insert_ne.
Qed.

End FailedJobs.

Section RequestContext.
Import AIService QueueService Context.

Lemma append_assoc (a b c : string) :
  ((a ++ b) ++ c)%string = (a ++ (b ++ c))%string.
Proof.
  induction a as [|x a IH]; [done|]. by rewrite !append_cons, IH.
Qed.

Lemma split_cons sep c s :
  split sep (String c s)
  = if Ascii.eqb c sep then EmptyString :: split sep s
    else match split sep s with
         | piece :: pieces => String c piece :: pieces
         | [] => [String c EmptyString]
         end.
Proof. done. Qed.

Lemma split_without sep s : occurs sep s = false → split sep s = [s].
Proof.
  induction s as [|c s IH]; [done|]. cbn [occurs].
  intros [Hc Hs]%orb_false_iff. by rewrite split_cons, Hc, (IH Hs).
Qed.

Lemma split_at_first sep a b :
  occurs sep a = false →
  split sep (a ++ String sep b) = a :: split sep b.
Proof.
  induction a as [|c a IH].
  - intros _. rewrite append_empty, split_cons. by rewrite Ascii.eqb_refl.
  - cbn [occurs]. intros [Hc Ha]%orb_false_iff.
    rewrite append_cons, split_cons, Hc. by rewrite (IH Ha).
Qed.

Lemma occurs_app c a b : occurs c (a ++ b) = occurs c a || occurs c b.
Proof.
  induction a as [|x a IH]; [done|].
  rewrite append_cons. cbn [occurs]. by rewrite IH, orb_assoc.
Qed.

Lemma trimStart_keeps a b :
  a ≠ EmptyString → trimStart a = a → trimStart (a ++ b) = (a ++ b)%string.
Proof.
  destruct a as [|c a]; [done|]. intros _ Ha. rewrite append_cons. simpl in *.
  destruct (isWhiteSpace c) eqn:Hc; [|done].
  exfalso. clear -Ha.
  assert (∀ s, String.length (trimStart s) ≤ String.length s)%nat as Hlen.
  { induction s as [|x s IH]; simpl; [lia|].
    destruct (isWhiteSpace x); simpl; lia. }
  specialize (Hlen a). rewrite Ha in Hlen. simpl in Hlen. lia.
Qed.

Lemma trimEnd_keeps a b :
  b ≠ EmptyString → trimEnd b = b → trimEnd (a ++ b) = (a ++ b)%string.
Proof.
  intros Hb Heq. induction a as [|c a IH]; [done|].
  rewrite append_cons. simpl. rewrite IH.
  destruct (a ++ b)%string eqn:Hab; [|done].
  destruct a; [by rewrite append_empty in Hab | by rewrite append_cons in Hab].
Qed.

Lemma trimStart_space s : trimStart (String " " s) = trimStart s.
Proof. done. Qed.

(** One [name=value] piece, as written or after a space, is read back as
    name and value. *)
Lemma entry_pair k v :
  plain k → k ≠ EmptyString → plain v →
  entry (k ++ "=" ++ v) = [k; v] ∧ entry (" " ++ k ++ "=" ++ v) = [k; v].
Proof.
  intros (_ & Hk & Hks & _) Hne (_ & Hv & _ & Hve).
  assert (trim (k ++ "=" ++ v) = (k ++ "=" ++ v)%string) as Htrim.
  { unfold trim. rewrite trimStart_keeps by done.
    apply trimEnd_keeps.
    - by rewrite append_cons.
    - destruct v as [|c v]; [done|].
      change ("=" ++ String c v)%string with (String "=" (String c v)).
      change (String "=" (String c v)) with ("=" ++ String c v)%string.
      by apply trimEnd_keeps. }
  assert (split "=" (k ++ "=" ++ v) = [k; v]) as Hsplit.
  { change ("=" ++ v)%string with (String "=" v).
    rewrite split_at_first by done. by rewrite split_without. }
  unfold entry. split.
  - by rewrite Htrim.
  - unfold trim. rewrite append_cons, append_empty, trimStart_space.
    fold (trim (k ++ "=" ++ v)). by rewrite Htrim.
Qed.

Lemma split_header pre k v rest :
  occurs ";" pre = false →
  Forall (λ kv, plain kv.1 ∧ kv.1 ≠ EmptyString ∧ plain kv.2)
    ((k, v) :: rest) →
  split ";" (pre ++ cookieHeaderOf ((k, v) :: rest))
  = (pre ++ k ++ "=" ++ v)%string
    :: ((λ kv, (" " ++ kv.1 ++ "=" ++ kv.2)%string) <$> rest).
Proof.
  revert pre k v. induction rest as [|[k' v'] rest IH]; intros pre k v Hpre Hall.
  - apply Forall_cons in Hall as [((Hk & _) & _ & (Hv & _)) _]. simpl in *.
    apply split_without. rewrite !occurs_app, Hpre, Hk, Hv. done.
  - apply Forall_cons in Hall as [((Hk & _) & _ & (Hv & _)) Hall]. simpl in Hk, Hv.
    change (cookieHeaderOf ((k, v) :: (k', v') :: rest))
      with (k ++ "=" ++ v ++ "; " ++ cookieHeaderOf ((k', v') :: rest))%string.
    replace (pre ++ k ++ "=" ++ v ++ "; " ++ cookieHeaderOf ((k', v') :: rest))%string
      with ((pre ++ k ++ "=" ++ v)
            ++ String ";" (" " ++ cookieHeaderOf ((k', v') :: rest)))%string.
    2:{ rewrite !append_assoc. done. }
    rewrite split_at_first.
    2:{ rewrite !occurs_app, Hpre, Hk, Hv. done. }
    rewrite (IH " " k' v') by done. done.
Qed.

Lemma fromEntries_pairs (m0 : gmap string (option string))
    (pairs : list (string * string)) :
  foldl (λ m e, match e with
                | k :: rest => <[k := head rest]> m
                | [] => m
                end) m0 ((λ kv, [kv.1; kv.2]) <$> pairs)
  = foldl (λ m kv, <[kv.1 := Some kv.2]> m) m0 pairs.
Proof.
  revert m0. induction pairs as [|[k v] pairs IH]; intros m0; [done|].
  simpl. apply IH.
Qed.

Lemma parseCookies_cookieHeaderOf (pairs : list (string * string)) :
  Forall (λ kv, plain kv.1 ∧ kv.1 ≠ EmptyString ∧ plain kv.2) pairs →
  parseCookies (Some (cookieHeaderOf pairs))
  = foldl (λ m kv, <[kv.1 := Some kv.2]> m) ∅ pairs.
Proof.
  intros Hall. unfold parseCookies. simpl.
  destruct pairs as [|[k v] rest]; [done|].
  rewrite <- (append_empty (cookieHeaderOf ((k, v) :: rest))).
  rewrite (split_header "" k v rest) by done.
  rewrite append_empty, fmap_cons.
  assert (entry <$> ((λ kv, (" " ++ kv.1 ++ "=" ++ kv.2)%string) <$> rest)
          = (λ kv, [kv.1; kv.2]) <$> rest) as ->.
  { apply Forall_cons in Hall as [_ Hall]. rewrite <- list_fmap_compose.
    apply Forall_fmap_ext_1. eapply Forall_impl; [exact Hall|].
    intros [k' v'] (Hk & Hne & Hv). simpl. by apply entry_pair. }
  apply Forall_cons in Hall as [(Hk & Hne & Hv) Hall]. simpl in Hk, Hne, Hv.
  rewrite (proj1 (entry_pair k v Hk Hne Hv)).
  assert (filter (λ e, keep e = true)
            ([k; v] :: ((λ kv, [kv.1; kv.2]) <$> rest))
          = (λ kv, [kv.1; kv.2]) <$> ((k, v) :: rest)) as ->.
  { rewrite fmap_cons. simpl.
    assert (∀ l : list (string * string),
              Forall (λ kv, plain kv.1 ∧ kv.1 ≠ EmptyString ∧ plain kv.2) l →
              filter (λ e, keep e = true) ((λ kv, [kv.1; kv.2]) <$> l)
              = (λ kv, [kv.1; kv.2]) <$> l) as Hkeep.
    { induction l as [|[a b] l IHl]; [done|].
      intros [(_ & Ha & _) Hl]%Forall_cons. simpl in Ha.
      rewrite fmap_cons, filter_cons_True.
      - by rewrite IHl.
      - simpl. apply negb_true_iff. by apply String.eqb_neq. }
    rewrite filter_cons_True.
    - by rewrite Hkeep.
    - simpl. apply negb_true_iff. by apply String.eqb_neq. }
  unfold fromEntries. apply fromEntries_pairs.
Qed.

Lemma foldl_insert_last (pairs : list (string * string)) (key : string) :
  foldl (λ (m : gmap string (option string)) kv, <[kv.1 := Some kv.2]> m)
    ∅ pairs !! key
  = Some <$> last (snd <$> filter (λ kv, kv.1 = key) pairs).
Proof.
  induction pairs as [|[k v] pairs IH] using rev_ind; [done|].
  rewrite foldl_snoc, filter_app, fmap_app. simpl.
  destruct (decide (k = key)) as [->|Hne].
  - rewrite lookup_insert_eq, filter_cons_True by done.
    rewrite filter_nil. simpl. by rewrite last_snoc.
  - rewrite lookup_insert_ne, filter_cons_False by done.
    rewrite filter_nil. simpl. by rewrite app_nil_r.
Qed.

(** X23.  Parsing the [cookie] header a browser sends for a list of cookies
    (plain names and values, joined by "; ") gives back, for every name, the
    value of its last occurrence, and nothing for a name that does not
    occur. *)
Theorem cookies_round_trip (pairs : list (string * string)) (key : string) :
  Forall (λ kv, plain kv.1 ∧ kv.1 ≠ EmptyString ∧ plain kv.2) pairs →
  parseCookies (Some (cookieHeaderOf pairs)) !! key
  = Some <$> last (snd <$> filter (λ kv, kv.1 = key) pairs).
Proof.
  intros Hall. rewrite parseCookies_cookieHeaderOf by done.
  apply foldl_insert_last.
Qed.

(** X24.  An [auth_token] cookie whose value contains [=] is cut at the
    first [=]: the token used for the session look-up is the part before
    it. *)
Theorem token_is_cut_at_equals (a b : string) :
  a ≠ EmptyString →
  occurs ";" a = false → occurs "=" a = false →
  occurs ";" b = false → trimEnd b = b →
  authToken (Some ("auth_token=" ++ a ++ "=" ++ b)%string) = Some a.
Proof.
  intros Hne Ha1 Ha2 Hb1 Hb2.
  set (hdr := ("auth_token=" ++ a ++ "=" ++ b)%string).
  assert (occurs ";" hdr = false) as Hsemi.
  { subst hdr. rewrite !occurs_app, Ha1, Hb1. done. }
  assert (trim hdr = hdr) as Htrim.
  { unfold trim. replace (trimStart hdr) with hdr by done. subst hdr.
    rewrite <- (append_assoc "auth_token=" a ("=" ++ b)).
    apply trimEnd_keeps.
    - done.
    - destruct b as [|c b]; [done|]. by apply trimEnd_keeps. }
  assert (split "=" hdr = "auth_token" :: a :: split "=" b) as Hsplit.
  { subst hdr.
    change ("auth_token=" ++ a ++ "=" ++ b)%string
      with ("auth_token" ++ String "=" (a ++ String "=" b))%string.
    rewrite split_at_first by done. by rewrite split_at_first. }
  unfold authToken, parseCookies. fold hdr.
  change (default "" (Some hdr)) with hdr.
  rewrite (split_without ";" hdr Hsemi).
  rewrite list_fmap_singleton. unfold entry. rewrite Htrim, Hsplit.
  rewrite filter_cons_True by done. rewrite filter_nil.
  unfold fromEntries. cbn [foldl head]. rewrite lookup_insert_eq.
  by rewrite (proj2 (String.eqb_neq a "") Hne).
Qed.

(** X25.  For a header of plain cookies, [createContext] sets [user]
    exactly when the last [auth_token] cookie is non-empty and names a session
    whose [expiresAt] is strictly later than now; the user is then the
    session's. *)
Theorem signed_in_request {User : Type} (pairs : list (string * string))
    (now : Z) (sessions : gmap string (Session User)) :
  Forall (λ kv, plain kv.1 ∧ kv.1 ≠ EmptyString ∧ plain kv.2) pairs →
  user (createContext (Some (cookieHeaderOf pairs)) now sessions)
  = match last (snd <$> filter (λ kv, kv.1 = "auth_token") pairs) with
    | Some token =>
        match sessions !! token with
        | Some session =>
            if decide (token ≠ EmptyString ∧ now < expiresAt session)
            then Some (sessionUser session) else None
        | None => None
        end
    | None => None
    end.
Proof.
  intros Hall. unfold createContext, authToken. simpl.
  rewrite parseCookies_cookieHeaderOf, foldl_insert_last by done.
  destruct (last _) as [token|]; [|done].
  simpl. destruct (String.eqb_spec token "") as [->|Hne].
  - destruct (sessions !! ""); [|done].
    rewrite decide_False; [done | tauto].
  - destruct (sessions !! token) as [session|]; [|done].
    destruct (Z.ltb_spec now (expiresAt session)).
    + by rewrite decide_True.
    + rewrite decide_False; [done | lia].
Qed.

End RequestContext.

Section Instances.
Import AIService QueueService History Scenario Cases.

Lemma tick_touches_one_row_witness :
  dom (queueJob doneTick.1.2) = dom (queueJob (storeWith genJob)) ∧
  (∀ id, (∀ r, doneTick.2 ≠ Executed id r) →
         queueJob doneTick.1.2 !! id = queueJob (storeWith genJob) !! id) ∧
  ((∀ id r, doneTick.2 ≠ Executed id r) →
   doneTick.1.1 = newService ∧ doneTick.1.2 = storeWith genJob).
Proof.
  apply (tick_touches_one_row (tickWith answered) newService
           (storeWith genJob)).
  vm_compute. reflexivity.
Defined.

Lemma jobs_are_never_dropped_witness :
  ∃ row', queueJob afterHistory.1.2 !! "j1" = Some row' ∧ sameJob genJob row'.
Proof.
  apply (jobs_are_never_dropped 3 history newService (storeWith genJob)
           afterHistory.1.1 afterHistory.1.2 afterHistory.2 "j1" genJob).
  - vm_compute. reflexivity.
  - vm_compute. reflexivity.
Defined.

Lemma history_has_no_retry :
  Forall (λ op, ∀ now, op ≠ Retry "j1" now) history.
Proof. repeat constructor; intros now; discriminate. Qed.

Lemma executed_at_most_once_witness :
  (executions "j1" afterHistory.2 ≤ 1)%nat ∧
  ("j1" ∈ processedJobs newService → executions "j1" afterHistory.2 = 0%nat).
Proof.
  apply (executed_at_most_once 3 history newService (storeWith genJob)
           afterHistory.1.1 afterHistory.1.2).
  - vm_compute. reflexivity.
  - apply history_has_no_retry.
Defined.

Lemma failedJobsCache_only_grows_witness :
  length (failedJobsCache afterHistory.1.1)
  = (length (failedJobsCache newService) + failures afterHistory.2)%nat ∧
  failedJobsCache newService `prefix_of` failedJobsCache afterHistory.1.1.
Proof.
  apply (failedJobsCache_only_grows 3 history newService (storeWith genJob)
           afterHistory.1.1 afterHistory.1.2).
  vm_compute. reflexivity.
Defined.

Lemma closed_rows_are_out_of_reach_witness :
  queueJob (run 3 (Retry "j1" 100 :: history) newService
              (storeWith completedJob)).1.2 !! "j1" = Some completedJob ∧
  executions "j1"
    (run 3 (Retry "j1" 100 :: history) newService (storeWith completedJob)).2
  = 0%nat.
Proof.
  apply (closed_rows_are_out_of_reach 3 (Retry "j1" 100 :: history)
           newService (storeWith completedJob)
           (run 3 (Retry "j1" 100 :: history) newService
              (storeWith completedJob)).1.1).
  - vm_compute. reflexivity.
  - vm_compute. reflexivity.
  - left. reflexivity.
Defined.

Lemma retried_job_runs_again_witness :
  ∃ s1 d1 s2 d2 r,
    retryJob "j1" 100 newService (storeWith (failedJob 3 3)) = (s1, d1, Ok ()) ∧
    processNextJob laterTick s1 d1 = (s2, d2, Executed "j1" r) ∧
    ∃ row, queueJob d2 !! "j1" = Some row ∧
           attempts row = match r with Ok _ => 0 | Throw _ => 1 end.
Proof.
  apply (retried_job_runs_again 100 laterTick newService
           (storeWith (failedJob 3 3)) "j1" (failedJob 3 3)).
  - reflexivity.
  - vm_compute. reflexivity.
  - reflexivity.
  - vm_compute. discriminate.
  - intros id' job' Hne Hrow. simpl in Hrow.
    rewrite lookup_singleton_ne in Hrow by done. discriminate.
Defined.

Lemma enqueued_job_runs_witness :
  ∃ newJob d1 s2 d2 r,
    addJob 3 "j2" 20 20 "ai_generation" buttonPayload None
      (storeWith (failedJob 3 3))
    = (d1, Ok newJob) ∧
    queueJob d1 !! "j2" = Some newJob ∧
    status newJob = Pending ∧ attempts newJob = 0 ∧
    priority newJob = default 0 None ∧ maxAttempts newJob = 3 ∧
    processNextJob laterTick newService d1 = (s2, d2, Executed "j2" r).
Proof.
  apply (enqueued_job_runs 3 "j2" 20 20 "ai_generation" buttonPayload None
           laterTick newService (storeWith (failedJob 3 3))).
  - reflexivity.
  - vm_compute. reflexivity.
  - apply not_elem_of_empty.
  - vm_compute. discriminate.
  - intros id' job' Hrow [Hst _]. simpl in Hrow.
    apply lookup_singleton_Some in Hrow as [_ <-]. discriminate.
Defined.

Lemma fresh_instance_executes_witness :
  ∃ s' d' r,
    processNextJob (tickWith answered) newService (storeWith genJob)
    = (s', d', Executed "j1" r) ∧
    processedJobs s' = {["j1"]}.
Proof.
  apply (fresh_instance_executes (tickWith answered) (storeWith genJob)
           "j1" genJob).
  vm_compute. reflexivity.
Defined.

Lemma executeJob_frame_witness :
  queueJob (executeJob (tickWith rateLimited) (componentJob "ai_improvement")
              ∅ (componentStore "ai_improvement")).1.2
  = queueJob (componentStore "ai_improvement") ∧
  (type (componentJob "ai_improvement") ≠ "ai_generation" →
   (executeJob (tickWith rateLimited) (componentJob "ai_improvement")
      ∅ (componentStore "ai_improvement")).1.1 = ∅ ∧
   generation (executeJob (tickWith rateLimited)
                 (componentJob "ai_improvement")
                 ∅ (componentStore "ai_improvement")).1.2
   = generation (componentStore "ai_improvement") ∧
   ∀ msg,
     (executeJob (tickWith rateLimited) (componentJob "ai_improvement")
        ∅ (componentStore "ai_improvement")).2 = Throw msg →
     (executeJob (tickWith rateLimited) (componentJob "ai_improvement")
        ∅ (componentStore "ai_improvement")).1.2
     = componentStore "ai_improvement") ∧
  (type (componentJob "ai_improvement") = "ai_generation" →
   component (executeJob (tickWith rateLimited)
                (componentJob "ai_improvement")
                ∅ (componentStore "ai_improvement")).1.2
   = component (componentStore "ai_improvement")).
Proof.
  apply (executeJob_frame (tickWith rateLimited)
           (componentJob "ai_improvement") ∅
           (componentStore "ai_improvement")).
  vm_compute. reflexivity.
Defined.

Lemma improvement_job_outcome_witness :
  generation (componentTick "ai_improvement").1.2
  = generation (componentStore "ai_improvement") ∧
  requestCache (componentTick "ai_improvement").1.1 = requestCache newService ∧
  ∃ c text,
    componentId (payload (componentJob "ai_improvement")) = Some c ∧
    improveCode (reply (tickWith answered)) = Ok text ∧
    is_Some (component (componentStore "ai_improvement") !! c) ∧
    component (componentTick "ai_improvement").1.2
    = <[c := {| Component.componentData := Component.Improved text;
                Component.updatedAt := t_record (tickWith answered) |}]>
        (component (componentStore "ai_improvement")).
Proof.
  apply (improvement_job_outcome (tickWith answered) newService
           (componentStore "ai_improvement")
           (componentTick "ai_improvement").1.1
           (componentTick "ai_improvement").1.2
           "j1" (Ok ()) (componentJob "ai_improvement")).
  - vm_compute. reflexivity.
  - vm_compute. reflexivity.
  - reflexivity.
Defined.

Lemma validation_job_outcome_witness :
  generation (componentTick "ai_validation").1.2
  = generation (componentStore "ai_validation") ∧
  requestCache (componentTick "ai_validation").1.1 = requestCache newService ∧
  ∃ c row valid issues,
    componentId (payload (componentJob "ai_validation")) = Some c ∧
    validateComponent (reply (tickWith answered)) = Ok (valid, issues) ∧
    component (componentStore "ai_validation") !! c = Some row ∧
    component (componentTick "ai_validation").1.2
    = <[c := {| Component.componentData :=
                  Component.Validated
                    (code (payload (componentJob "ai_validation")))
                    valid issues (t_record (tickWith answered));
                Component.updatedAt := Component.updatedAt row |}]>
        (component (componentStore "ai_validation")).
Proof.
  apply (validation_job_outcome (tickWith answered) newService
           (componentStore "ai_validation")
           (componentTick "ai_validation").1.1
           (componentTick "ai_validation").1.2
           "j1" (Ok ()) (componentJob "ai_validation")).
  - vm_compute. reflexivity.
  - vm_compute. reflexivity.
  - reflexivity.
Defined.

Lemma cached_generation_needs_no_provider_witness :
  ∃ s' d' row,
    processNextJob (tickWith rateLimited) warmService (storeWith genJob)
    = (s', d', Executed "j1" (Ok ())) ∧
    requestCache s' = requestCache warmService ∧
    queueJob d' !! "j1" = Some row ∧ status row = Completed ∧
    generation d' !! "g1"
    = Some {| Generation.status := Completed;
              Generation.result := Some "<button/>";
              Generation.tokensUsed := Some 0;
              Generation.completedAt := Some (t_record (tickWith rateLimited)) |}.
Proof.
  apply (cached_generation_needs_no_provider (tickWith rateLimited)
           warmService (storeWith genJob) "j1" genJob "g1" "button"
           pendingGeneration
           {| result_text := "<button/>"; timestamp := 0 |}).
  - reflexivity.
  - vm_compute. reflexivity.
  - apply not_elem_of_empty.
  - reflexivity.
  - reflexivity.
  - reflexivity.
  - vm_compute. reflexivity.
  - vm_compute. reflexivity.
  - vm_compute. reflexivity.
Defined.

Lemma generateComponent_failure_witness :
  failed_to_generate = failed_to_generate ∧
  (∅ : gmap string CacheEntry) = ∅ ∧
  (Some "button" = None ∨
   (∃ why, rateLimited = Rejects why) ∨
   (∃ r, rateLimited = Replies r ∧
         ∀ text rest, content r ≠ TextBlock text :: rest)).
Proof.
  apply (generateComponent_failure (Some "button") 12 13 rateLimited ∅).
  reflexivity.
Defined.

Lemma fresh_generation_sweeps_witness :
  ∃ cache',
    generateComponent (Some "button") 12 13
      (Replies {| content := [TextBlock "<button/>"];
                  input_tokens := 120; output_tokens := 30 |}) ∅
    = (cache', Ok ("<button/>", 120 + 30)) ∧
    cache' !! "button"
    = Some {| result_text := "<button/>"; timestamp := 13 |} ∧
    (∀ k e, cache' !! k = Some e → 13 - timestamp e ≤ TTL) ∧
    (∀ k e, k ≠ "button" →
            (cache' !! k = Some e ↔
             (∅ : gmap string CacheEntry) !! k = Some e ∧
             13 - timestamp e ≤ TTL)) ∧
    (getCacheSize cache' ≤ getCacheSize ∅ + 1)%nat.
Proof.
  apply (fresh_generation_sweeps "button" 12 13
           {| content := [TextBlock "<button/>"];
              input_tokens := 120; output_tokens := 30 |}
           "<button/>" [] ∅).
  - left. reflexivity.
  - reflexivity.
Defined.

Lemma stats_after_execution_witness :
  let st := Inspection.getQueueStats newService (storeWith genJob) in
  let st' := Inspection.getQueueStats doneTick.1.1 doneTick.1.2 in
  Inspection.processing st' = Inspection.processing st ∧
  Inspection.processedCount st' = S (Inspection.processedCount st) ∧
  Inspection.pending st = S (Inspection.pending st') ∧
  Inspection.completed st' = S (Inspection.completed st) ∧
  Inspection.failed st' = Inspection.failed st ∧
  Inspection.failedCacheSize st' = Inspection.failedCacheSize st.
Proof.
  apply (stats_after_execution (tickWith answered) newService
           (storeWith genJob) doneTick.1.1 doneTick.1.2 "j1" (Ok ()) genJob).
  - vm_compute. reflexivity.
  - vm_compute. reflexivity.
Defined.

Lemma stats_after_retry_witness :
  ∃ s' d',
    retryJob "j1" 100 newService (storeWith (failedJob 3 3)) = (s', d', Ok ()) ∧
    let st := Inspection.getQueueStats newService (storeWith (failedJob 3 3)) in
    let st' := Inspection.getQueueStats s' d' in
    Inspection.failed st = S (Inspection.failed st') ∧
    Inspection.pending st' = S (Inspection.pending st) ∧
    Inspection.processing st' = Inspection.processing st ∧
    Inspection.completed st' = Inspection.completed st ∧
    Inspection.failedCacheSize st' = Inspection.failedCacheSize st ∧
    Inspection.processedCount st
    = (Inspection.processedCount st'
       + (if decide ("j1" ∈ processedJobs newService) then 1 else 0))%nat.
Proof.
  apply (stats_after_retry "j1" 100 newService (storeWith (failedJob 3 3))
           (failedJob 3 3)).
  - vm_compute. reflexivity.
  - reflexivity.
Defined.

Lemma retry_leaves_failed_list_witness :
  ∃ s' d',
    retryJob "j1" 100 newService (storeWith (failedJob 3 3)) = (s', d', Ok ()) ∧
    ("j1" ∉ (Inspection.getFailedJobs d').*1) ∧
    ∀ id row, id ≠ "j1" →
              ((id, row) ∈ Inspection.getFailedJobs d' ↔
               (id, row) ∈ Inspection.getFailedJobs (storeWith (failedJob 3 3))).
Proof.
  apply (retry_leaves_failed_list "j1" 100 newService
           (storeWith (failedJob 3 3)) (failedJob 3 3)).
  - vm_compute. reflexivity.
  - reflexivity.
Defined.

Lemma browserCookies_plain :
  Forall (λ kv, Context.plain kv.1 ∧ kv.1 ≠ EmptyString ∧ Context.plain kv.2)
    browserCookies.
Proof.
  repeat constructor; simpl; (reflexivity || discriminate).
Qed.

Lemma cookies_round_trip_witness :
  Context.parseCookies (Some (Context.cookieHeaderOf browserCookies))
    !! "auth_token"
  = Some <$> last (snd <$> filter (λ kv, kv.1 = "auth_token") browserCookies).
Proof.
  apply (cookies_round_trip browserCookies "auth_token").
  apply browserCookies_plain.
Defined.

Lemma token_is_cut_at_equals_witness :
  Context.authToken (Some ("auth_token=" ++ "YWJj" ++ "=" ++ "")%string)
  = Some "YWJj".
Proof.
  apply (token_is_cut_at_equals "YWJj" "").
  - discriminate.
  - reflexivity.
  - reflexivity.
  - reflexivity.
  - reflexivity.
Defined.

Lemma signed_in_request_witness :
  Context.user
    (Context.createContext (Some (Context.cookieHeaderOf browserCookies))
       499 sessionTable)
  = match last (snd <$> filter (λ kv, kv.1 = "auth_token") browserCookies) with
    | Some token =>
        match sessionTable !! token with
        | Some session =>
            if decide (token ≠ EmptyString ∧ 499 < Context.expiresAt session)
            then Some (Context.sessionUser session) else None
        | None => None
        end
    | None => None
    end.
Proof.
  apply (signed_in_request browserCookies 499 sessionTable).
  apply browserCookies_plain.
Defined.

End Instances.
